(** * protoo: the Peer request/response engine (server/lib/Peer.js)

    A shallow embedding of [class Peer] and of the parts of the JavaScript
    runtime it talks to: the transport object, the event emitter, the timer
    queue ([setTimeout]/[clearTimeout]), the promises created by [send] and
    the error logger.  Every method and every callback of the class is a
    function on an explicit state; the event loop is a fold over a list of
    events.  One event is one turn of the loop: the methods and callbacks
    run to completion, promise reactions run in later turns, and the only
    listener the class can re-enter synchronously, the transport's 'close'
    listener under [this._transport.close()], finds the closed flag set and
    returns. *)

From stdpp Require Import base option list gmap strings.
From Stdlib Require Import ZArith.

(** ** JavaScript values *)

(** Decoded payloads and frame fields.  Numbers are modelled by integers (no
    NaN, no negative zero) and objects by their reference, so that the
    SameValueZero comparison of [Map] keys is plain equality. *)
Inductive jsval : Type :=
| JUndefined
| JNull
| JBool (b : bool)
| JNum (n : Z)
| JStr (s : string)
| JObj (ref : nat).

#[global] Instance jsval_eq_dec : EqDecision jsval.
Proof. solve_decision. Defined.

(** ToBoolean, as used by [if (x)] and [!x]. *)
Definition truthy (v : jsval) : bool :=
  match v with
  | JUndefined | JNull => false
  | JBool b => b
  | JNum n => negb (Z.eqb n 0)
  | JStr s => negb (String.eqb s ""%string)
  | JObj _ => true
  end.

(** A decoded frame: a JS object read through the properties the engine
    looks at; a property the object lacks reads as [JUndefined]. *)
Record message : Type := Message {
  msg_id : jsval;
  msg_request : jsval;
  msg_response : jsval;
  msg_method : jsval;
  msg_ok : jsval;
  msg_data : jsval;
  msg_errorReason : jsval;
  msg_errorCode : jsval
}.

(** An [Error] object: the argument given to [new Error(...)] and its [code]
    property ([JUndefined] when the property was never assigned). *)
Record jserror : Type := JsError {
  err_reason : jsval;
  err_code : jsval
}.

#[global] Instance jserror_eq_dec : EqDecision jserror.
Proof. solve_decision. Defined.

(** ** Message.js *)

Module Message.

(** Modelled from the spec: [Message.requestFactory] (lib/Message.js is not
    among the sources).  It wraps method and data in a frame marked as a
    request; the id it generates is the parameter [id], chosen by the
    caller of the model. *)
Definition requestFactory (id : jsval) (method data : jsval) : message :=
  {| msg_id := id; msg_request := JBool true; msg_response := JUndefined;
     msg_method := method; msg_ok := JUndefined; msg_data := data;
     msg_errorReason := JUndefined; msg_errorCode := JUndefined |}.

(** Modelled from the spec: [Message.successResponseFactory] copies the id
    of the originating request and sets [ok] to true. *)
Definition successResponseFactory (request : message) (data : jsval) : message :=
  {| msg_id := msg_id request; msg_request := JUndefined;
     msg_response := JBool true; msg_method := JUndefined;
     msg_ok := JBool true; msg_data := data;
     msg_errorReason := JUndefined; msg_errorCode := JUndefined |}.

(** Modelled from the spec: [Message.errorResponseFactory] copies the id of
    the originating request, sets [ok] to false and carries reason and
    code. *)
Definition errorResponseFactory (request : message)
    (errorReason errorCode : jsval) : message :=
  {| msg_id := msg_id request; msg_request := JUndefined;
     msg_response := JBool true; msg_method := JUndefined;
     msg_ok := JBool false; msg_data := JUndefined;
     msg_errorReason := errorReason; msg_errorCode := errorCode |}.

End Message.

(** ** The runtime around a Peer *)

(** State of a promise created by [new Promise]. *)
Inductive pstate : Type :=
| Pending
| Fulfilled (value : jsval)
| Rejected (error : jserror).

#[global] Instance pstate_eq_dec : EqDecision pstate.
Proof. solve_decision. Defined.

(** Which closure of [send] invoked [pResolve] or [pReject]. *)
Inductive action : Type :=
| ViaResolve   (* handler.resolve *)
| ViaReject    (* handler.reject *)
| ViaTimer     (* the setTimeout callback *)
| ViaClose.    (* handler.close *)

#[global] Instance action_eq_dec : EqDecision action.
Proof. solve_decision. Defined.

(** One invocation of [pResolve]/[pReject]. *)
Record settle_call : Type := SettleCall {
  sc_promise : nat;
  sc_via : action;
  sc_outcome : pstate
}.

#[global] Instance settle_call_eq_dec : EqDecision settle_call.
Proof. solve_decision. Defined.

(** The handler object built by [send].  Its four closures capture
    [request.id], the promise's [pResolve]/[pReject] and, through
    [handler.timer], the timer handle. *)
Record handler : Type := Handler {
  h_id : jsval;
  h_promise : nat;
  h_timer : nat
}.

#[global] Instance handler_eq_dec : EqDecision handler.
Proof. solve_decision. Defined.

(** The callback armed by [setTimeout] in [send]: it captures [request.id]
    and [pReject]; [tm_delay] is the delay it was armed with. *)
Record timer : Type := Timer {
  tm_id : jsval;
  tm_promise : nat;
  tm_delay : Z
}.

(** A call made on [this._transport]. *)
Inductive transport_call : Type :=
| TClose
| TSend (frame : message).

(** An event emitted by the Peer.  The ['request'] event carries the request
    and the two closures [accept] and [reject] over it (below). *)
Inductive emission : Type :=
| EvClose
| EvRequest (request : message).

#[global] Instance message_eq_dec : EqDecision message.
Proof. solve_decision. Defined.

#[global] Instance emission_eq_dec : EqDecision emission.
Proof. solve_decision. Defined.

(** Max time waiting for a response. *)
Definition REQUEST_TIMEOUT : Z := 10000%Z.

(** A Peer and the runtime objects it owns.  [_requestHandlers] is the [Map]
    of the class, in insertion order, each handler stored under the
    [request.id] its closures capture.  [_transport] is the transport as the
    Peer acts on it: the calls made on it so far.  [emitted] are the events
    the Peer has emitted, [timers] the armed timers by handle, [promises] the
    promises created by [send], [settles] the calls made on their
    [pResolve]/[pReject] functions and [errors] the [logger.error] messages;
    [logger.debug] traces are not recorded. *)
Record state : Type := State {
  _id : jsval;
  _closed : bool;
  _requestHandlers : list handler;
  _transport : list transport_call;
  emitted : list emission;
  timers : gmap nat timer;
  next_timer : nat;
  promises : list pstate;
  settles : list settle_call;
  errors : list string
}.

(** Field updates. *)
Definition set_closed (b : bool) (st : state) : state :=
  {| _id := _id st; _closed := b; _requestHandlers := _requestHandlers st;
     _transport := _transport st; emitted := emitted st; timers := timers st;
     next_timer := next_timer st; promises := promises st;
     settles := settles st; errors := errors st |}.

Definition set_requestHandlers (l : list handler) (st : state) : state :=
  {| _id := _id st; _closed := _closed st; _requestHandlers := l;
     _transport := _transport st; emitted := emitted st; timers := timers st;
     next_timer := next_timer st; promises := promises st;
     settles := settles st; errors := errors st |}.

Definition transport_do (c : transport_call) (st : state) : state :=
  {| _id := _id st; _closed := _closed st;
     _requestHandlers := _requestHandlers st;
     _transport := _transport st ++ [c]; emitted := emitted st;
     timers := timers st; next_timer := next_timer st;
     promises := promises st; settles := settles st; errors := errors st |}.

(** [this.emit(...)]: the emission is recorded; what the listeners of the
    application do with it is outside the class. *)
Definition emit (e : emission) (st : state) : state :=
  {| _id := _id st; _closed := _closed st;
     _requestHandlers := _requestHandlers st;
     _transport := _transport st; emitted := emitted st ++ [e];
     timers := timers st; next_timer := next_timer st;
     promises := promises st; settles := settles st; errors := errors st |}.

Definition set_timers (m : gmap nat timer) (st : state) : state :=
  {| _id := _id st; _closed := _closed st;
     _requestHandlers := _requestHandlers st;
     _transport := _transport st; emitted := emitted st; timers := m;
     next_timer := next_timer st; promises := promises st;
     settles := settles st; errors := errors st |}.

Definition logger_error (s : string) (st : state) : state :=
  {| _id := _id st; _closed := _closed st;
     _requestHandlers := _requestHandlers st;
     _transport := _transport st; emitted := emitted st; timers := timers st;
     next_timer := next_timer st; promises := promises st;
     settles := settles st; errors := errors st ++ [s] |}.

(** ** The [Map] of request handlers *)

(** [Map.prototype.get]. *)
Definition map_get (k : jsval) (l : list handler) : option handler :=
  head (filter (λ h, h_id h = k) l).

(** [Map.prototype.has]; also the boolean returned by [Map.prototype.delete]. *)
Definition map_has (k : jsval) (l : list handler) : bool :=
  bool_decide (k ∈ h_id <$> l).

(** [Map.prototype.delete]. *)
Definition map_delete (k : jsval) (l : list handler) : list handler :=
  filter (λ h, h_id h ≠ k) l.

(** [Map.prototype.set]: an existing key keeps its place. *)
Definition map_set (h : handler) (l : list handler) : list handler :=
  if map_has (h_id h) l
  then (λ h', if decide (h_id h' = h_id h) then h else h') <$> l
  else l ++ [h].

(** ** Timers and promises *)

(** [setTimeout(cb, delay)]: arms [cb] under a new handle. *)
Definition setTimeout (cb : timer) (st : state) : state * nat :=
  ({| _id := _id st; _closed := _closed st;
      _requestHandlers := _requestHandlers st;
      _transport := _transport st; emitted := emitted st;
      timers := <[next_timer st := cb]> (timers st);
      next_timer := S (next_timer st); promises := promises st;
      settles := settles st; errors := errors st |}, next_timer st).

(** [clearTimeout(handle)]; a handle that is not armed is ignored. *)
Definition clearTimeout (t : nat) (st : state) : state :=
  set_timers (delete t (timers st)) st.

(** [new Promise(...)]: a new pending promise. *)
Definition new_promise (st : state) : state * nat :=
  ({| _id := _id st; _closed := _closed st;
      _requestHandlers := _requestHandlers st;
      _transport := _transport st; emitted := emitted st;
      timers := timers st; next_timer := next_timer st;
      promises := promises st ++ [Pending];
      settles := settles st; errors := errors st |}, length (promises st)).

(** A call of [pResolve] or [pReject] of promise [p]: only the first one
    changes the promise. *)
Definition settle (p : nat) (via : action) (o : pstate) (st : state) : state :=
  {| _id := _id st; _closed := _closed st;
     _requestHandlers := _requestHandlers st;
     _transport := _transport st; emitted := emitted st;
     timers := timers st; next_timer := next_timer st;
     promises := match promises st !! p with
                 | Some Pending => <[p := o]> (promises st)
                 | _ => promises st
                 end;
     settles := settles st ++ [SettleCall p via o]; errors := errors st |}.

Definition pResolve (p : nat) (via : action) (data : jsval) : state → state :=
  settle p via (Fulfilled data).

Definition pReject (p : nat) (via : action) (error : jserror) : state → state :=
  settle p via (Rejected error).

(** [new Error('request timeout')] and [new Error('peer closed')]. *)
Definition request_timeout : jserror :=
  JsError (JStr "request timeout"%string) JUndefined.

Definition peer_closed : jserror :=
  JsError (JStr "peer closed"%string) JUndefined.

(** ** class Peer *)

Module Peer.

(** [constructor(peerId, transport)].  The two listeners that
    [_handleTransport] installs are [on_transport_close] and
    [on_transport_message] below. *)
Definition constructor (peerId : jsval) : state :=
  {| _id := peerId; _closed := false; _requestHandlers := [];
     _transport := []; emitted := []; timers := ∅; next_timer := 0;
     promises := []; settles := []; errors := [] |}.

Definition id (st : state) : jsval := _id st.

(** [handler.resolve(data)]. *)
Definition handler_resolve (h : handler) (data : jsval) (st : state) : state :=
  if negb (map_has (h_id h) (_requestHandlers st)) then st
  else
    let st := set_requestHandlers (map_delete (h_id h) (_requestHandlers st)) st in
    let st := clearTimeout (h_timer h) st in
    pResolve (h_promise h) ViaResolve data st.

(** [handler.reject(error)]. *)
Definition handler_reject (h : handler) (error : jserror) (st : state) : state :=
  if negb (map_has (h_id h) (_requestHandlers st)) then st
  else
    let st := set_requestHandlers (map_delete (h_id h) (_requestHandlers st)) st in
    let st := clearTimeout (h_timer h) st in
    pReject (h_promise h) ViaReject error st.

(** The callback given to [setTimeout]. *)
Definition timer_callback (tm : timer) (st : state) : state :=
  if negb (map_has (tm_id tm) (_requestHandlers st)) then st
  else
    let st := set_requestHandlers (map_delete (tm_id tm) (_requestHandlers st)) st in
    pReject (tm_promise tm) ViaTimer request_timeout st.

(** [handler.close()]. *)
Definition handler_close (h : handler) (st : state) : state :=
  let st := clearTimeout (h_timer h) st in
  pReject (h_promise h) ViaClose peer_closed st.

(** [l.forEach((handler) => handler.close())]. *)
Definition close_handlers (l : list handler) (st : state) : state :=
  foldl (λ st h, handler_close h st) st l.

(** [close()]. *)
Definition close (st : state) : state :=
  if _closed st then st
  else
    let st := set_closed true st in
    (* Close transport. *)
    let st := transport_do TClose st in
    (* Close every pending request handler. *)
    let st := close_handlers (_requestHandlers st) st in
    (* Emit 'close' event. *)
    emit EvClose st.

(** [send(method, data)]; [id] is the id [Message.requestFactory] gives the
    request.  The result is the new state and the promise returned. *)
Definition send (id method data : jsval) (st : state) : state * nat :=
  let request := Message.requestFactory id method data in
  let '(st, p) := new_promise st in
  let '(st, t) :=
    setTimeout {| tm_id := msg_id request; tm_promise := p;
                  tm_delay := REQUEST_TIMEOUT |} st in
  let h := {| h_id := msg_id request; h_promise := p; h_timer := t |} in
  (* Add handler stuff to the Map. *)
  (set_requestHandlers (map_set h (_requestHandlers st)) st, p).

(** The listener of the transport's ['close'] event. *)
Definition on_transport_close (st : state) : state :=
  if _closed st then st
  else
    let st := set_closed true st in
    (* Emit 'close' event. *)
    emit EvClose st.

(** [_handleResponse(response)]. *)
Definition _handleResponse (response : message) (st : state) : state :=
  match map_get (msg_id response) (_requestHandlers st) with
  | None =>
      logger_error "received response does not match any sent request"%string st
  | Some h =>
      if truthy (msg_ok response)
      then handler_resolve h (msg_data response) st
      else
        let error := {| err_reason := msg_errorReason response;
                        err_code := msg_errorCode response |} in
        handler_reject h error st
  end.

(** [_handleRequest(request)]: emits ['request'] with the request and the
    closures [accept] and [reject]. *)
Definition _handleRequest (request : message) (st : state) : state :=
  emit (EvRequest request) st.

(** The [accept()] function handed out with a ['request'] event. *)
Definition accept (request : message) (data : jsval) (st : state) : state :=
  let response := Message.successResponseFactory request data in
  transport_do (TSend response) st.

(** The [reject()] function handed out with a ['request'] event. *)
Definition reject (request : message) (errorReason errorCode : jsval)
    (st : state) : state :=
  let response := Message.errorResponseFactory request errorReason errorCode in
  transport_do (TSend response) st.

(** The listener of the transport's ['message'] event. *)
Definition on_transport_message (message : message) (st : state) : state :=
  if truthy (msg_response message) then _handleResponse message st
  else if truthy (msg_request message) then _handleRequest message st
  else st.

(** The runtime firing timer [t]: nothing happens unless [t] is armed; an
    armed timer is consumed and its callback runs. *)
Definition fire_timer (t : nat) (st : state) : state :=
  match timers st !! t with
  | None => st
  | Some tm => timer_callback tm (clearTimeout t st)
  end.

End Peer.

(** ** The event loop *)

(** What can happen to a Peer, one event-loop turn each. *)
Inductive event : Type :=
| Send (id method data : jsval)
| Close
| TransportClose
| TransportMessage (m : message)
| TimerFire (t : nat)
| Accept (request : message) (data : jsval)
| Reject (request : message) (errorReason errorCode : jsval).

Definition step (st : state) (e : event) : state :=
  match e with
  | Send id method data => fst (Peer.send id method data st)
  | Close => Peer.close st
  | TransportClose => Peer.on_transport_close st
  | TransportMessage m => Peer.on_transport_message m st
  | TimerFire t => Peer.fire_timer t st
  | Accept request data => Peer.accept request data st
  | Reject request reason code => Peer.reject request reason code st
  end.

Definition run (tr : list event) (st : state) : state := foldl step st tr.

(** Whether event [e] respects the uniqueness of ids in state [st]. *)
Definition fresh_id (st : state) (e : event) : bool :=
  match e with
  | Send id _ _ => negb (map_has id (_requestHandlers st))
  | _ => true
  end.

(** The ids of [Message.requestFactory] are unique among the outstanding
    requests: every [Send] of the trace carries an id that has no entry in
    the table when it is issued. *)
Fixpoint fresh_ids (tr : list event) (st : state) : bool :=
  match tr with
  | [] => true
  | e :: tr => fresh_id st e && fresh_ids tr (step st e)
  end.

(** The calls of [pResolve]/[pReject] made on promise [p] so far. *)
Definition calls (p : nat) (st : state) : list settle_call :=
  filter (λ c, sc_promise c = p) (settles st).

(** Calls made by one of the three closures guarded by
    [this._requestHandlers.delete(request.id)]. *)
Definition gated (c : settle_call) : Prop := sc_via c ≠ ViaClose.

#[global] Instance gated_dec c : Decision (gated c).
Proof. unfold gated. apply _. Defined.

Definition count_close (l : list emission) : nat :=
  length (filter (λ e, e = EvClose) l).

(** The call [handler.close] makes on promise [p]. *)
Definition close_call (p : nat) : settle_call :=
  SettleCall p ViaClose (Rejected peer_closed).

(** A gated removal: what [handler.resolve], [handler.reject] and a fired
    timer do once [delete] has returned true. *)
Definition retire (h : handler) (via : action) (o : pstate) (st : state) : state :=
  settle (h_promise h) via o
    (clearTimeout (h_timer h)
       (set_requestHandlers (map_delete (h_id h) (_requestHandlers st)) st)).

(** The invariant of the table, the timers and the promises. *)
Record inv (st : state) : Prop := {
  (* the keys of the Map are distinct; so are the promises and the timers
     the handlers own *)
  inv_ids : NoDup (h_id <$> _requestHandlers st);
  inv_promises : NoDup (h_promise <$> _requestHandlers st);
  inv_timers : NoDup (h_timer <$> _requestHandlers st);
  inv_bounds : ∀ h, h ∈ _requestHandlers st →
    h_promise h < length (promises st) ∧ h_timer h < next_timer st;
  (* an armed timer belongs to a handler of the table *)
  inv_armed : ∀ t tm, timers st !! t = Some tm →
    tm_delay tm = REQUEST_TIMEOUT ∧
    Handler (tm_id tm) (tm_promise tm) t ∈ _requestHandlers st;
  (* a handler of the table is either untouched, its timer armed, or was
     closed by close() *)
  inv_table : ∀ h, h ∈ _requestHandlers st →
    (is_Some (timers st !! h_timer h) ∧ calls (h_promise h) st = []) ∨
    (timers st !! h_timer h = None ∧ _closed st = true ∧
     calls (h_promise h) st = [close_call (h_promise h)]);
  (* a promise whose handler left the table went through the gate once *)
  inv_retired : ∀ p, p < length (promises st) →
    p ∉ h_promise <$> _requestHandlers st →
    ∃ c, gated c ∧ (calls p st = [c] ∨ calls p st = [close_call p; c]);
  inv_unborn : ∀ p, length (promises st) ≤ p → calls p st = [];
  (* the state of a promise is the outcome of the first call made on it *)
  inv_state : ∀ p, p < length (promises st) →
    promises st !! p =
    Some (match calls p st with [] => Pending | c :: _ => sc_outcome c end);
  inv_outcome : ∀ c, c ∈ settles st → sc_outcome c ≠ Pending
}.

(** The two ways a Peer gets closed. *)
Definition is_closure (e : event) : bool :=
  match e with
  | Close | TransportClose => true
  | _ => false
  end.

(** The outcome [_handleResponse] hands to the handler of a response. *)
Definition response_outcome (response : message) : pstate :=
  if truthy (msg_ok response) then Fulfilled (msg_data response)
  else Rejected {| err_reason := msg_errorReason response;
                   err_code := msg_errorCode response |}.

(** The message [_handleResponse] logs for a response without handler. *)
Definition unmatched : string :=
  "received response does not match any sent request"%string.

(** 'close' has been emitted once on a closed Peer, never on an open one. *)
Definition close_emitted_once (st : state) : Prop :=
  count_close (emitted st) = if _closed st then 1 else 0.

(** ** Sample inputs *)

(** A new Peer, a request [ping] with id 1 and the two kinds of response
    to it. *)
Definition alice : state := Peer.constructor (JStr "alice"%string).

Definition ping : message :=
  Message.requestFactory (JNum 1) (JStr "ping"%string) JNull.

Definition pong : message :=
  Message.successResponseFactory ping (JStr "pong"%string).

Definition refusal : message :=
  Message.errorResponseFactory ping (JStr "not allowed"%string) (JNum 403).

(** A frame that carries both flags. *)
Definition both_flags : message :=
  {| msg_id := JNum 1; msg_request := JBool true; msg_response := JBool true;
     msg_method := JStr "ping"%string; msg_ok := JBool true;
     msg_data := JStr "pong"%string;
     msg_errorReason := JUndefined; msg_errorCode := JUndefined |}.

(** [alice] after [send('ping', null)]. *)
Definition ping_sent : state :=
  (Peer.send (JNum 1) (JStr "ping"%string) JNull alice).1.

(** ** What the transport has seen *)

#[global] Instance transport_call_eq_dec : EqDecision transport_call.
Proof. solve_decision. Defined.

(** The frames handed to [this._transport.send], in order. *)
Definition sent_frames (l : list transport_call) : list message :=
  omap (λ c, match c with TSend frame => Some frame | TClose => None end) l.

(** The number of [this._transport.close()] calls. *)
Definition count_tclose (l : list transport_call) : nat :=
  length (filter (λ c, c = TClose) l).

(** The response frames that the [accept] and [reject] calls of a trace
    build. *)
Definition responses_of (tr : list event) : list message :=
  omap (λ e, match e with
             | Accept request data =>
                 Some (Message.successResponseFactory request data)
             | Reject request errorReason errorCode =>
                 Some (Message.errorResponseFactory request errorReason errorCode)
             | _ => None
             end) tr.

(** The calls that event [e] makes on the transport of a Peer in state
    [st]. *)
Definition transport_calls_of (st : state) (e : event) : list transport_call :=
  match e with
  | Close => if _closed st then [] else [TClose]
  | Accept request data =>
      [TSend (Message.successResponseFactory request data)]
  | Reject request errorReason errorCode =>
      [TSend (Message.errorResponseFactory request errorReason errorCode)]
  | _ => []
  end.

(** ** What the Peer emits *)

(** The events that event [e] makes a Peer in state [st] emit. *)
Definition emissions_of (st : state) (e : event) : list emission :=
  match e with
  | Close | TransportClose => if _closed st then [] else [EvClose]
  | TransportMessage m =>
      if truthy (msg_response m) then []
      else if truthy (msg_request m) then [EvRequest m] else []
  | _ => []
  end.

(** The requests carried by the 'request' events of [l]. *)
Definition emitted_requests (l : list emission) : list message :=
  omap (λ e, match e with EvRequest m => Some m | EvClose => None end) l.

(** The frames delivered by the transport in a trace that are requests for
    the 'message' listener: response field falsy, request field truthy. *)
Definition inbound_requests (tr : list event) : list message :=
  omap (λ e, match e with
             | TransportMessage m =>
                 if truthy (msg_response m) then None
                 else if truthy (msg_request m) then Some m else None
             | _ => None
             end) tr.

(** ** class Application (lib/Application.js) *)

Module Application.

(** A listener registered on the application with [on]: code of the user,
    known by a name.  Called with the arguments of an event it returns, or
    throws a value.  Listeners are taken not to register or remove listeners
    while they run. *)
Record listener : Type := Listener {
  l_name : nat;
  l_throws : list jsval → option jsval
}.

(** What the application does to the outside: a listener invoked,
    [this.peerManager.close(code, reason)], [server.close(closeServers)] on
    one of [this.servers].  The calls on the PeerManager and on the servers,
    which are not part of this file, are taken to return. *)
Inductive call : Type :=
| Invoke (name : nat) (args : list jsval)
| PeerManagerClose (code reason : jsval)
| ServerClose (server : jsval) (closeServers : jsval).

(** An Application: the listeners of its EventEmitter in registration
    order, each under its event name; [this.servers], each WebSocketServer
    named by the HTTP server it was built on; and the calls made so far. *)
Record app : Type := App {
  listeners : list (string * listener);
  servers : list jsval;
  log : list call
}.

(** How a call ends. *)
Inductive completion (A : Type) : Type :=
| Returns (a : A)
| Throws (v : jsval).

Arguments Returns {A} a.
Arguments Throws {A} v.

(** [new Application()]. *)
Definition constructor : app :=
  {| listeners := []; servers := []; log := [] |}.

(** [EventEmitter.prototype.on]. *)
Definition on (event : string) (l : listener) (a : app) : app :=
  {| listeners := listeners a ++ [(event, l)]; servers := servers a;
     log := log a |}.

(** [EventEmitter.prototype.listeners]. *)
Definition listeners_of (event : string) (a : app) : list listener :=
  snd <$> filter (λ x, x.1 = event) (listeners a).

Definition record (c : call) (a : app) : app :=
  {| listeners := listeners a; servers := servers a; log := log a ++ [c] |}.

(** The listeners [ls] called in turn with [args]; the first one that
    throws ends the calls. *)
Fixpoint call_listeners (ls : list listener) (args : list jsval) (a : app)
    : app * completion bool :=
  match ls with
  | [] => (a, Returns true)
  | l :: ls =>
      let a := record (Invoke (l_name l) args) a in
      match l_throws l args with
      | Some v => (a, Throws v)
      | None => call_listeners ls args a
      end
  end.

Section emitter.

(** What [emit('error', ...)] throws when 'error' has no listener (the
    argument itself when it is an Error, an Error of the runtime's own
    otherwise). *)
Variable unhandled : list jsval → jsval.

(** [EventEmitter.prototype.emit]. *)
Definition emit (event : string) (args : list jsval) (a : app)
    : app * completion bool :=
  match listeners_of event a with
  | [] =>
      if String.eqb event "error" then (a, Throws (unhandled args))
      else (a, Returns false)
  | ls => call_listeners ls args a
  end.

(** [Application.prototype.error]. *)
Definition error (error : jsval) (a : app) : app * completion unit :=
  if Nat.eqb (length (listeners_of "error" a)) 0 then (a, Throws error)
  else
    match emit "error" [error] a with
    | (a, Returns _) => (a, Returns tt)
    | (a, Throws v) => (a, Throws v)
    end.

(** [Application.prototype.fire]; [event] is [arguments[0]] and [args] the
    other arguments. *)
Definition fire (event : string) (args : list jsval) (a : app)
    : app * completion bool :=
  match emit event args a with
  | (a, Returns _) => (a, Returns true)
  | (a, Throws v) =>
      match error v a with
      | (a, Returns _) => (a, Returns false)
      | (a, Throws w) => (a, Throws w)
      end
  end.

(** The listener the constructor puts on [this.peerManager]'s 'error'. *)
Definition on_peerManager_error (e : jsval) (a : app) : app * completion unit :=
  error e a.

(** The listener [handleWebSocket] puts on the new server's 'error'. *)
Definition on_wsServer_error (e : jsval) (a : app) : app * completion unit :=
  error e a.

End emitter.

(** [Application.prototype.handleWebSocket]; the result is [this]. *)
Definition handleWebSocket (httpServer : jsval) (a : app) : app :=
  {| listeners := listeners a; servers := servers a ++ [httpServer];
     log := log a |}.

(** [Application.prototype.close]. *)
Definition close (closeServers : jsval) (a : app) : app :=
  (* Disconnect all the peers. *)
  let a := record (PeerManagerClose (JNum 1001) (JStr "shutting down")) a in
  (* Close the servers. *)
  foldl (λ a server, record (ServerClose server closeServers) a) a (servers a).

(** The calls made on the listeners [ls] when none of them throws. *)
Definition invocations (ls : list listener) (args : list jsval) : list call :=
  (λ l, Invoke (l_name l) args) <$> ls.

End Application.

(** Sample applications: a listener that returns and one that throws
    'boom' on 'peer:online', without and with a listener on 'error'. *)
Definition quiet (name : nat) : Application.listener :=
  Application.Listener name (λ _, None).

Definition thrower (name : nat) (v : jsval) : Application.listener :=
  Application.Listener name (λ _, Some v).

Definition careless_app : Application.app :=
  Application.on "peer:online" (thrower 2 (JStr "boom"))
    (Application.on "peer:online" (quiet 1) Application.constructor).

Definition careful_app : Application.app :=
  Application.on "error" (quiet 9) careless_app.

(** A value for what the runtime throws on an unhandled 'error' event. *)
Definition unhandled_error (args : list jsval) : jsval :=
  JStr "unhandled error".

(** * Properties *)

(** ** The Map operations *)

Section map_ops.
Implicit Types (k : jsval) (h : handler) (l : list handler).

Lemma map_has_true k l : map_has k l = true ↔ ∃ h, h ∈ l ∧ h_id h = k.
Proof.
  unfold map_has. rewrite bool_decide_eq_true, list_elem_of_fmap. split.
  - intros (h & -> & Hin). eauto.
  - intros (h & Hin & <-). eauto.
Qed.

Lemma map_has_false k l : map_has k l = false ↔ ∀ h, h ∈ l → h_id h ≠ k.
Proof.
  unfold map_has. rewrite bool_decide_eq_false, list_elem_of_fmap. split.
  - intros Hno h Hin <-. apply Hno. eauto.
  - intros Hno (h & -> & Hin). by eapply Hno.
Qed.

Lemma map_get_Some k l h : map_get k l = Some h → h ∈ l ∧ h_id h = k.
Proof.
  unfold map_get. intros Hhd. apply head_Some_elem_of in Hhd.
  by apply list_elem_of_filter in Hhd as [? ?].
Qed.

Lemma map_get_None k l : map_get k l = None ↔ map_has k l = false.
Proof.
  unfold map_get. rewrite map_has_false, head_None. split.
  - intros Hnil h Hin Heq.
    assert (h ∈ filter (λ h, h_id h = k) l) as Hf
      by (apply list_elem_of_filter; done).
    rewrite Hnil in Hf. by apply not_elem_of_nil in Hf.
  - intros Hno. induction l as [|h l IH]; [done|].
    rewrite filter_cons. case_decide as Hk.
    + exfalso. eapply (Hno h); [left|done].
    + apply IH. intros h' Hin. apply Hno. by right.
Qed.

Lemma map_get_is_Some k l : map_has k l = true → is_Some (map_get k l).
Proof.
  intros Hhas. destruct (map_get k l) eqn:Hget; [by eexists|].
  apply map_get_None in Hget. congruence.
Qed.

Lemma elem_of_map_delete k l h : h ∈ map_delete k l ↔ h ∈ l ∧ h_id h ≠ k.
Proof. unfold map_delete. rewrite list_elem_of_filter. tauto. Qed.

Lemma map_has_delete k l : map_has k (map_delete k l) = false.
Proof. apply map_has_false. intros h Hin. by apply elem_of_map_delete in Hin as [_ ?]. Qed.

Lemma map_get_delete k l : map_get k (map_delete k l) = None.
Proof. apply map_get_None, map_has_delete. Qed.

Lemma map_set_fresh h l : map_has (h_id h) l = false → map_set h l = l ++ [h].
Proof. unfold map_set. by intros ->. Qed.

(** With distinct keys, [get] finds exactly the entries of the table. *)
Lemma map_get_elem_of l h :
  NoDup (h_id <$> l) → h ∈ l → map_get (h_id h) l = Some h.
Proof.
  unfold map_get. induction l as [|h' l IH]; intros Hnd Hin.
  - by apply not_elem_of_nil in Hin.
  - rewrite fmap_cons in Hnd. apply NoDup_cons in Hnd as [Hnotin Hnd].
    rewrite filter_cons. apply elem_of_cons in Hin as [->|Hin].
    + by rewrite decide_True.
    + rewrite decide_False; [by apply IH|].
      intros Heq. apply Hnotin. rewrite Heq. apply list_elem_of_fmap. eauto.
Qed.

Lemma NoDup_fmap_filter {B} (f : handler → B) (P : handler → Prop)
    `{!∀ h, Decision (P h)} l :
  NoDup (f <$> l) → NoDup (f <$> filter P l).
Proof.
  induction l as [|h l IH]; [done|]. rewrite fmap_cons, NoDup_cons.
  intros [Hnotin Hnd]. rewrite filter_cons. case_decide.
  - rewrite fmap_cons. apply NoDup_cons. split; [|by apply IH].
    rewrite list_elem_of_fmap. intros (h' & Heq & Hin).
    apply list_elem_of_filter in Hin as [_ Hin].
    apply Hnotin. apply list_elem_of_fmap. eauto.
  - by apply IH.
Qed.

Lemma NoDup_fmap_inj {B} (f : handler → B) l h1 h2 :
  NoDup (f <$> l) → h1 ∈ l → h2 ∈ l → f h1 = f h2 → h1 = h2.
Proof.
  induction l as [|h l IH]; intros Hnd H1 H2 Heq.
  - by apply not_elem_of_nil in H1.
  - rewrite fmap_cons in Hnd. apply NoDup_cons in Hnd as [Hnotin Hnd].
    apply elem_of_cons in H1 as [->|H1]; apply elem_of_cons in H2 as [->|H2];
      try done.
    + exfalso. apply Hnotin. rewrite Heq. apply list_elem_of_fmap. eauto.
    + exfalso. apply Hnotin. rewrite <- Heq. apply list_elem_of_fmap. eauto.
    + by apply IH.
Qed.

End map_ops.

(** ** Calls made on a promise *)

Section calls.
Implicit Types (p q : nat) (st : state).

Lemma calls_settle p q via o st :
  calls p (settle q via o st) =
  calls p st ++ (if decide (q = p) then [SettleCall q via o] else []).
Proof.
  unfold calls. simpl. rewrite filter_app. f_equal.
Qed.

Lemma calls_settle_ne p q via o st :
  q ≠ p → calls p (settle q via o st) = calls p st.
Proof.
  intros Hne. rewrite calls_settle, decide_False by done. apply app_nil_r.
Qed.

Lemma calls_settle_eq p via o st :
  calls p (settle p via o st) = calls p st ++ [SettleCall p via o].
Proof. by rewrite calls_settle, decide_True. Qed.

Lemma calls_promise p st c : c ∈ calls p st → sc_promise c = p.
Proof. unfold calls. intros Hin. by apply list_elem_of_filter in Hin as [? _]. Qed.

Lemma promises_settle_ne p q via o st :
  q ≠ p → promises (settle q via o st) !! p = promises st !! p.
Proof.
  intros Hne. simpl. destruct (promises st !! q) as [[| |]|]; try done.
  by apply list_lookup_insert_ne.
Qed.

Lemma promises_settle_pending p via o st :
  promises st !! p = Some Pending →
  promises (settle p via o st) !! p = Some o.
Proof.
  intros Hp. simpl. rewrite Hp. apply list_lookup_insert_eq.
  by eapply lookup_lt_Some.
Qed.

Lemma promises_settle_settled p q via o st :
  promises st !! p ≠ Some Pending →
  promises (settle q via o st) !! p = promises st !! p.
Proof.
  intros Hp. destruct (decide (q = p)) as [->|Hne].
  - simpl. destruct (promises st !! p) as [[| |]|] eqn:E; congruence.
  - by apply promises_settle_ne.
Qed.

Lemma length_promises_settle q via o st :
  length (promises (settle q via o st)) = length (promises st).
Proof.
  simpl. destruct (promises st !! q) as [[| |]|]; try done.
  apply length_insert.
Qed.

End calls.

(** ** The invariant of the table, the timers and the promises *)

Lemma inv_constructor peerId : inv (Peer.constructor peerId).
Proof.
  split; simpl.
  - constructor.
  - constructor.
  - constructor.
  - intros h Hin. by apply not_elem_of_nil in Hin.
  - intros t tm Hl. by rewrite lookup_empty in Hl.
  - intros h Hin. by apply not_elem_of_nil in Hin.
  - intros p Hp. lia.
  - done.
  - intros p Hp. lia.
  - intros c Hin. by apply not_elem_of_nil in Hin.
Qed.

(** Two handlers of the table that differ have nothing in common. *)
Lemma inv_distinct st h1 h2 :
  inv st → h1 ∈ _requestHandlers st → h2 ∈ _requestHandlers st →
  h_id h1 = h_id h2 ∨ h_promise h1 = h_promise h2 ∨ h_timer h1 = h_timer h2 →
  h1 = h2.
Proof.
  intros Hinv H1 H2 [Heq|[Heq|Heq]].
  - eapply NoDup_fmap_inj; [apply (inv_ids _ Hinv)|done..].
  - eapply NoDup_fmap_inj; [apply (inv_promises _ Hinv)|done..].
  - eapply NoDup_fmap_inj; [apply (inv_timers _ Hinv)|done..].
Qed.

Lemma inv_send st id method data :
  inv st → map_has id (_requestHandlers st) = false →
  inv (Peer.send id method data st).1.
Proof.
  intros Hinv Hfresh. unfold Peer.send. simpl.
  rewrite map_set_fresh by done.
  set (p := length (promises st)). set (t := next_timer st).
  assert (∀ h, h ∈ _requestHandlers st → h_promise h ≠ p ∧ h_timer h ≠ t) as Hold.
  { intros h Hin. destruct (inv_bounds _ Hinv h Hin). unfold p, t. lia. }
  split; simpl.
  - rewrite fmap_app. apply NoDup_app. split; [apply Hinv|]. split.
    + intros k Hk Hk'. apply list_elem_of_singleton in Hk'. subst k.
      apply list_elem_of_fmap in Hk as (h & Heq & Hin).
      eapply (proj1 (map_has_false _ _) Hfresh); [exact Hin|done].
    + apply NoDup_singleton.
  - rewrite fmap_app. apply NoDup_app. split; [apply Hinv|]. split.
    + intros k Hk Hk'. apply list_elem_of_singleton in Hk'. subst k.
      apply list_elem_of_fmap in Hk as (h & Heq & Hin).
      destruct (Hold h Hin). simpl in *. congruence.
    + apply NoDup_singleton.
  - rewrite fmap_app. apply NoDup_app. split; [apply Hinv|]. split.
    + intros k Hk Hk'. apply list_elem_of_singleton in Hk'. subst k.
      apply list_elem_of_fmap in Hk as (h & Heq & Hin).
      destruct (Hold h Hin). simpl in *. congruence.
    + apply NoDup_singleton.
  - intros h Hin. rewrite length_app. simpl.
    apply elem_of_app in Hin as [Hin|Hin].
    + destruct (inv_bounds _ Hinv h Hin). lia.
    + apply list_elem_of_singleton in Hin. subst h. simpl. unfold p, t. lia.
  - intros t' tm Hl. destruct (decide (t = t')) as [<-|Hne].
    + rewrite lookup_insert_eq in Hl. injection Hl as <-. simpl.
      split; [done|]. apply elem_of_app. right. by apply list_elem_of_singleton.
    + rewrite lookup_insert_ne in Hl by done.
      destruct (inv_armed _ Hinv t' tm Hl). split; [done|].
      apply elem_of_app. by left.
  - intros h Hin. apply elem_of_app in Hin as [Hin|Hin].
    + destruct (Hold h Hin). rewrite lookup_insert_ne by done.
      apply (inv_table _ Hinv h Hin).
    + apply list_elem_of_singleton in Hin. subst h. simpl. left.
      rewrite lookup_insert_eq. split; [by eexists|].
      apply (inv_unborn _ Hinv). unfold p. lia.
  - intros p'. rewrite length_app, fmap_app. simpl. intros Hlt Hnotin.
    apply (inv_retired _ Hinv).
    + destruct (decide (p' = p)) as [->|]; [|unfold p in *; lia].
      exfalso. apply Hnotin. apply elem_of_app. right. by left.
    + intros Hin. apply Hnotin. apply elem_of_app. by left.
  - intros p'. rewrite length_app. simpl. intros Hle.
    apply (inv_unborn _ Hinv). lia.
  - intros p'. rewrite length_app. simpl. intros Hlt.
    destruct (decide (p' = p)) as [->|Hne].
    + unfold p at 1. rewrite lookup_app_r by done.
      rewrite Nat.sub_diag. simpl.
      replace (calls p _) with (calls p st) by done.
      rewrite (inv_unborn _ Hinv) by (unfold p; lia). done.
    + rewrite lookup_app_l by (unfold p in *; lia).
      apply (inv_state _ Hinv). unfold p in *. lia.
  - apply Hinv.
Qed.

Lemma inv_retire st h via o :
  inv st → h ∈ _requestHandlers st → via ≠ ViaClose → o ≠ Pending →
  inv (retire h via o st).
Proof.
  intros Hinv Hh Hvia Ho.
  assert (∀ h', h' ∈ map_delete (h_id h) (_requestHandlers st) →
            h' ∈ _requestHandlers st ∧ h_promise h' ≠ h_promise h ∧
            h_timer h' ≠ h_timer h) as Hrest.
  { intros h' Hin. apply elem_of_map_delete in Hin as [Hin Hne].
    split; [done|].
    split; intros Heq; apply Hne; f_equal;
      apply (inv_distinct st h' h Hinv Hin Hh); auto. }
  assert (∀ h', h' ∈ _requestHandlers st → h' ≠ h →
            h' ∈ map_delete (h_id h) (_requestHandlers st)) as Hkeep.
  { intros h' Hin Hne. apply elem_of_map_delete. split; [done|].
    intros Heq. apply Hne. apply (inv_distinct st h' h Hinv Hin Hh); auto. }
  split.
  - apply NoDup_fmap_filter, Hinv.
  - apply NoDup_fmap_filter, Hinv.
  - apply NoDup_fmap_filter, Hinv.
  - intros h' Hin. destruct (Hrest h' Hin) as (Hin' & _ & _).
    unfold retire. rewrite length_promises_settle. simpl.
    apply (inv_bounds _ Hinv h' Hin').
  - intros t tm Hl. simpl in Hl.
    apply lookup_delete_Some in Hl as [Hne Hl].
    destruct (inv_armed _ Hinv t tm Hl) as [Hd Hin]. split; [done|].
    apply Hkeep; [done|]. intros <-. by apply Hne.
  - intros h' Hin. destruct (Hrest h' Hin) as (Hin' & Hp & Ht).
    unfold retire. rewrite calls_settle_ne by done. simpl.
    rewrite lookup_delete_ne by done. apply (inv_table _ Hinv h' Hin').
  - intros p. unfold retire. rewrite length_promises_settle. simpl.
    intros Hlt Hnotin. destruct (decide (h_promise h = p)) as [<-|Hne].
    + rewrite calls_settle_eq.
      exists (SettleCall (h_promise h) via o). split; [done|].
      replace (calls (h_promise h) (clearTimeout _ _))
        with (calls (h_promise h) st) by done.
      destruct (inv_table _ Hinv h Hh) as [[_ ->]|(_ & _ & ->)]; auto.
    + rewrite calls_settle_ne by done.
      apply (inv_retired _ Hinv p Hlt). intros Hin. apply Hnotin.
      apply list_elem_of_fmap in Hin as (h' & -> & Hin).
      apply list_elem_of_fmap. exists h'. split; [done|].
      apply Hkeep; [done|]. by intros ->.
  - intros p. unfold retire. rewrite length_promises_settle. simpl.
    intros Hle. rewrite calls_settle_ne.
    + by apply (inv_unborn _ Hinv).
    + destruct (inv_bounds _ Hinv h Hh). lia.
  - intros p. unfold retire. rewrite length_promises_settle.
    intros Hlt. destruct (decide (h_promise h = p)) as [<-|Hne].
    + rewrite calls_settle_eq.
      replace (calls (h_promise h) (clearTimeout _ _))
        with (calls (h_promise h) st) by done.
      pose proof (inv_state _ Hinv _ Hlt) as Hst.
      destruct (inv_table _ Hinv h Hh) as [[_ Hc]|(_ & _ & Hc)];
        rewrite Hc in Hst |- *.
      * apply promises_settle_pending. exact Hst.
      * rewrite promises_settle_settled; [exact Hst|].
        change (promises st !! h_promise h ≠ Some Pending). by rewrite Hst.
    + rewrite calls_settle_ne, promises_settle_ne by done.
      by apply (inv_state _ Hinv).
  - intros c Hin. simpl in Hin. apply elem_of_app in Hin as [Hin|Hin].
    + by apply (inv_outcome _ Hinv).
    + apply list_elem_of_singleton in Hin. by subst c.
Qed.

Lemma inv_handler_close st h :
  inv st → _closed st = true → h ∈ _requestHandlers st →
  is_Some (timers st !! h_timer h) →
  inv (Peer.handler_close h st).
Proof.
  intros Hinv Hclosed Hh Harmed.
  assert (calls (h_promise h) st = []) as Hnone.
  { destruct (inv_table _ Hinv h Hh) as [[_ Hc]|(Hn & _)]; [done|].
    rewrite Hn in Harmed. by destruct Harmed. }
  assert (∀ h', h' ∈ _requestHandlers st → h' ≠ h →
            h_promise h' ≠ h_promise h ∧ h_timer h' ≠ h_timer h) as Hother.
  { intros h' Hin Hne.
    split; intros Heq; apply Hne;
      apply (inv_distinct st h' h Hinv Hin Hh); auto. }
  unfold Peer.handler_close, pReject. split.
  - apply Hinv.
  - apply Hinv.
  - apply Hinv.
  - intros h' Hin. rewrite length_promises_settle.
    apply (inv_bounds _ Hinv h' Hin).
  - intros t tm Hl. simpl in Hl. apply lookup_delete_Some in Hl as [_ Hl].
    apply (inv_armed _ Hinv t tm Hl).
  - intros h' Hin. simpl in Hin. destruct (decide (h' = h)) as [->|Hne].
    + right. rewrite calls_settle_eq. simpl. rewrite lookup_delete_eq.
      split; [done|]. split; [done|].
      replace (calls (h_promise h) (clearTimeout _ _))
        with (calls (h_promise h) st) by done.
      by rewrite Hnone.
    + destruct (Hother h' Hin Hne) as [Hp Ht].
      rewrite calls_settle_ne by done. simpl.
      rewrite lookup_delete_ne by done. apply (inv_table _ Hinv h' Hin).
  - intros p. rewrite length_promises_settle. simpl. intros Hlt Hnotin.
    rewrite calls_settle_ne; [by apply (inv_retired _ Hinv)|].
    intros <-. apply Hnotin. apply list_elem_of_fmap. eauto.
  - intros p. rewrite length_promises_settle. simpl. intros Hle.
    rewrite calls_settle_ne; [by apply (inv_unborn _ Hinv)|].
    destruct (inv_bounds _ Hinv h Hh). lia.
  - intros p. rewrite length_promises_settle. intros Hlt.
    destruct (decide (h_promise h = p)) as [<-|Hne].
    + rewrite calls_settle_eq.
      replace (calls (h_promise h) (clearTimeout _ _))
        with (calls (h_promise h) st) by done.
      pose proof (inv_state _ Hinv _ Hlt) as Hst.
      rewrite Hnone in Hst |- *.
      apply promises_settle_pending. exact Hst.
    + rewrite calls_settle_ne, promises_settle_ne by done.
      by apply (inv_state _ Hinv).
  - intros c Hin. simpl in Hin. apply elem_of_app in Hin as [Hin|Hin].
    + by apply (inv_outcome _ Hinv).
    + apply list_elem_of_singleton in Hin. by subst c.
Qed.

(** The invariant only reads the table, the timers, the promises and the
    calls, and the closed flag only when it is set. *)
Lemma inv_frame st st' :
  _requestHandlers st' = _requestHandlers st → timers st' = timers st →
  next_timer st' = next_timer st → promises st' = promises st →
  settles st' = settles st → (_closed st = true → _closed st' = true) →
  inv st → inv st'.
Proof.
  intros Hh Ht Hn Hp Hs Hc [].
  split; unfold calls in *; rewrite ?Hh, ?Ht, ?Hn, ?Hp, ?Hs; try done.
  intros h Hin. destruct (inv_table0 h Hin) as [?|(? & ? & ?)]; auto.
Qed.

(** ** The closures of [send], by cases on the gate *)

Section gate.
Implicit Types (h : handler) (st : state).

Lemma handler_resolve_in h data st :
  map_has (h_id h) (_requestHandlers st) = true →
  Peer.handler_resolve h data st = retire h ViaResolve (Fulfilled data) st.
Proof. unfold Peer.handler_resolve. by intros ->. Qed.

Lemma handler_resolve_out h data st :
  map_has (h_id h) (_requestHandlers st) = false →
  Peer.handler_resolve h data st = st.
Proof. unfold Peer.handler_resolve. by intros ->. Qed.

Lemma handler_reject_in h error st :
  map_has (h_id h) (_requestHandlers st) = true →
  Peer.handler_reject h error st = retire h ViaReject (Rejected error) st.
Proof. unfold Peer.handler_reject. by intros ->. Qed.

Lemma handler_reject_out h error st :
  map_has (h_id h) (_requestHandlers st) = false →
  Peer.handler_reject h error st = st.
Proof. unfold Peer.handler_reject. by intros ->. Qed.

Lemma fire_timer_in t tm st :
  timers st !! t = Some tm →
  map_has (tm_id tm) (_requestHandlers st) = true →
  Peer.fire_timer t st =
  retire (Handler (tm_id tm) (tm_promise tm) t) ViaTimer
    (Rejected request_timeout) st.
Proof.
  unfold Peer.fire_timer, Peer.timer_callback. intros -> Hhas.
  simpl. by rewrite Hhas.
Qed.

Lemma fire_timer_out t tm st :
  timers st !! t = Some tm →
  map_has (tm_id tm) (_requestHandlers st) = false →
  Peer.fire_timer t st = clearTimeout t st.
Proof.
  unfold Peer.fire_timer, Peer.timer_callback. intros -> Hhas.
  simpl. by rewrite Hhas.
Qed.

Lemma fire_timer_unarmed t st :
  timers st !! t = None → Peer.fire_timer t st = st.
Proof. unfold Peer.fire_timer. by intros ->. Qed.

Lemma map_has_elem_of h st :
  h ∈ _requestHandlers st → map_has (h_id h) (_requestHandlers st) = true.
Proof. intros Hin. apply map_has_true. eauto. Qed.

End gate.

(** ** The invariant holds along every run *)

Lemma inv_close_handlers l : ∀ st,
  inv st → _closed st = true → NoDup l →
  (∀ h, h ∈ l → h ∈ _requestHandlers st ∧ is_Some (timers st !! h_timer h)) →
  inv (Peer.close_handlers l st).
Proof.
  induction l as [|h l IH]; intros st Hinv Hclosed Hnd Hl; [done|].
  apply NoDup_cons in Hnd as [Hnotin Hnd].
  destruct (Hl h) as [Hh Harmed]; [by left|].
  simpl. apply IH; [by apply inv_handler_close|done|done|].
  intros h' Hin. destruct (Hl h') as [Hh' Harmed']; [by right|].
  split; [done|]. simpl. rewrite lookup_delete_ne; [done|].
  intros Heq. apply Hnotin.
  rewrite (inv_distinct st h h' Hinv Hh Hh'); auto.
Qed.

Lemma inv_close st : inv st → inv (Peer.close st).
Proof.
  intros Hinv. unfold Peer.close. destruct (_closed st) eqn:Hclosed; [done|].
  eapply inv_frame;
    [..|apply (inv_close_handlers (_requestHandlers st)
                 (transport_do TClose (set_closed true st)))]; try done.
  - eapply inv_frame; [..|exact Hinv]; done.
  - eapply NoDup_fmap_1, (inv_ids _ Hinv).
  - intros h Hin. split; [done|]. simpl.
    destruct (inv_table _ Hinv h Hin) as [[? _]|(_ & ? & _)]; [done|congruence].
Qed.

Lemma inv_handleResponse st m : inv st → inv (Peer._handleResponse m st).
Proof.
  intros Hinv. unfold Peer._handleResponse.
  destruct (map_get _ _) as [h|] eqn:Hget.
  - apply map_get_Some in Hget as [Hin _].
    destruct (truthy (msg_ok m)).
    + rewrite handler_resolve_in by by apply map_has_elem_of.
      by apply inv_retire.
    + rewrite handler_reject_in by by apply map_has_elem_of.
      by apply inv_retire.
  - eapply inv_frame; [..|exact Hinv]; done.
Qed.

Lemma inv_fire_timer st t : inv st → inv (Peer.fire_timer t st).
Proof.
  intros Hinv. destruct (timers st !! t) as [tm|] eqn:Ht.
  - destruct (inv_armed _ Hinv t tm Ht) as [_ Hin].
    rewrite (fire_timer_in t tm) by (done || by apply (map_has_elem_of _ _ Hin)).
    by apply inv_retire.
  - by rewrite fire_timer_unarmed.
Qed.

Lemma inv_step st e : inv st → fresh_id st e = true → inv (step st e).
Proof.
  intros Hinv Hfresh. destruct e; simpl.
  - apply (inv_send st id method data Hinv). by apply negb_true_iff.
  - by apply inv_close.
  - unfold Peer.on_transport_close. destruct (_closed st); [done|].
    eapply inv_frame; [..|exact Hinv]; done.
  - unfold Peer.on_transport_message.
    destruct (truthy (msg_response m)); [by apply inv_handleResponse|].
    destruct (truthy (msg_request m)); [|done].
    eapply inv_frame; [..|exact Hinv]; done.
  - by apply inv_fire_timer.
  - eapply inv_frame; [..|exact Hinv]; done.
  - eapply inv_frame; [..|exact Hinv]; done.
Qed.

Lemma fresh_ids_cons e tr st :
  fresh_ids (e :: tr) st = fresh_id st e && fresh_ids tr (step st e).
Proof. done. Qed.

Lemma inv_run tr : ∀ st, inv st → fresh_ids tr st = true → inv (run tr st).
Proof.
  induction tr as [|e tr IH]; intros st Hinv Hfresh; [done|].
  rewrite fresh_ids_cons in Hfresh. apply andb_true_iff in Hfresh as [He Htr].
  simpl. apply IH; [by apply inv_step|done].
Qed.

Lemma inv_reachable peerId tr :
  fresh_ids tr (Peer.constructor peerId) = true →
  inv (run tr (Peer.constructor peerId)).
Proof. apply inv_run, inv_constructor. Qed.

(** ** What [send] does *)

Lemma map_get_set h l : map_get (h_id h) (map_set h l) = Some h.
Proof.
  unfold map_set. destruct (map_has (h_id h) l) eqn:Hhas.
  - apply map_has_true in Hhas as (h0 & Hin & Heq). unfold map_get.
    induction l as [|h' l IH]; [by apply not_elem_of_nil in Hin|].
    rewrite fmap_cons, filter_cons. destruct (decide (h_id h' = h_id h)) as [Hk|Hk].
    + by rewrite decide_True.
    + rewrite decide_False by done. apply IH.
      apply elem_of_cons in Hin as [->|Hin]; [congruence|done].
  - unfold map_get. rewrite filter_app.
    apply map_get_None in Hhas. unfold map_get in Hhas.
    apply head_None in Hhas. rewrite Hhas. simpl.
    rewrite filter_cons, decide_True by done. done.
Qed.

Lemma send_promise id method data st :
  (Peer.send id method data st).2 = length (promises st).
Proof. done. Qed.

Lemma send_transport id method data st :
  _transport (Peer.send id method data st).1 = _transport st.
Proof. done. Qed.

Lemma send_registers id method data st :
  map_get id (_requestHandlers (Peer.send id method data st).1) =
  Some (Handler id (length (promises st)) (next_timer st)).
Proof. unfold Peer.send. simpl. apply (map_get_set (Handler id _ _)). Qed.

Lemma send_arms id method data st :
  timers (Peer.send id method data st).1 !! next_timer st =
  Some (Timer id (length (promises st)) REQUEST_TIMEOUT).
Proof. unfold Peer.send. simpl. apply lookup_insert_eq. Qed.

Lemma send_pending id method data st :
  promises (Peer.send id method data st).1 !! length (promises st) =
  Some Pending.
Proof. unfold Peer.send. simpl. apply list_lookup_middle. done. Qed.

(** [send] never reads [this._closed]. *)
Lemma send_ignores_closed b id method data st :
  Peer.send id method data (set_closed b st) =
  (set_closed b (Peer.send id method data st).1,
   (Peer.send id method data st).2).
Proof. done. Qed.

(** When the timer armed by [send] fires first, the promise is rejected with
    'request timeout'. *)
Lemma send_then_timeout id method data st :
  promises (Peer.fire_timer (next_timer st) (Peer.send id method data st).1)
    !! length (promises st) = Some (Rejected request_timeout).
Proof.
  rewrite (fire_timer_in _ _ _ (send_arms id method data st)).
  - apply promises_settle_pending. apply send_pending.
  - change (map_has id (_requestHandlers (Peer.send id method data st).1) = true).
    destruct (map_has id _) eqn:Hhas; [done|].
    apply map_get_None in Hhas. by rewrite send_registers in Hhas.
Qed.

(** C1 (defect of the code).  On the new, open Peer [alice],
    [send('ping', null)] builds the request frame, registers its handler
    under the frame's id 1, arms the 10000 ms timer and returns a pending
    promise, but the frame is never handed to the transport: the log of
    calls made on the transport is still empty. *)
Theorem send_ping_never_reaches_transport :
  _closed alice = false ∧
  map_get (msg_id ping) (_requestHandlers ping_sent) =
    Some (Handler (msg_id ping) 0 0) ∧
  timers ping_sent !! 0 = Some (Timer (msg_id ping) 0 10000) ∧
  promises ping_sent !! 0 = Some Pending ∧
  _transport ping_sent = [].
Proof.
  split; [reflexivity|].
  split; [exact (send_registers (JNum 1) (JStr "ping"%string) JNull alice)|].
  split; [exact (send_arms (JNum 1) (JStr "ping"%string) JNull alice)|].
  split; [exact (send_pending (JNum 1) (JStr "ping"%string) JNull alice)|].
  exact (send_transport (JNum 1) (JStr "ping"%string) JNull alice).
Qed.

(** C3, as stated, fails: [alice] is closed, then asked to send; the
    promise returned is pending, not rejected with 'peer closed'. *)
Lemma send_after_close_is_not_rejected :
  let r := Peer.send (JNum 1) (JStr "ping"%string) JNull (Peer.close alice) in
  _closed (Peer.close alice) = true ∧
  promises r.1 !! r.2 = Some Pending ∧
  promises r.1 !! r.2 ≠ Some (Rejected peer_closed).
Proof. split; [reflexivity|]. split; [reflexivity|discriminate]. Qed.

(** C3 (amended).  A [send] made while the closed flag is true writes
    nothing to the transport and does not fail at once: the closed flag is
    not read, the handler is registered under the frame's id and the timer
    armed as on an open Peer, the promise returned is pending when [send]
    returns, and it is rejected with 'request timeout' when that timer
    fires. *)
Theorem send_while_closed id method data st :
  _closed st = true →
  let st' := (Peer.send id method data st).1 in
  let p := (Peer.send id method data st).2 in
  _transport st' = _transport st ∧
  _closed st' = true ∧
  Peer.send id method data (set_closed false st) = (set_closed false st', p) ∧
  promises st' !! p = Some Pending ∧
  map_get id (_requestHandlers st') = Some (Handler id p (next_timer st)) ∧
  timers st' !! next_timer st = Some (Timer id p REQUEST_TIMEOUT) ∧
  promises (Peer.fire_timer (next_timer st) st') !! p =
    Some (Rejected request_timeout).
Proof.
  intros Hclosed st' p. subst st' p. rewrite send_promise.
  split; [apply send_transport|]. split; [done|].
  split; [apply send_ignores_closed|]. split; [apply send_pending|].
  split; [apply send_registers|]. split; [apply send_arms|].
  apply send_then_timeout.
Qed.

Lemma send_while_closed_witness :
  _closed (Peer.close alice) = true ∧
  promises (Peer.send (JNum 1) JNull JNull (Peer.close alice)).1 !! 0 =
    Some Pending.
Proof.
  split; [reflexivity|].
  apply (send_while_closed (JNum 1) JNull JNull (Peer.close alice)).
  reflexivity.
Defined.

(** ** A settled promise stays as it is *)

Section settled.
Implicit Types (p : nat) (o : pstate) (st : state).

Lemma settle_keeps p o q via o' st :
  promises st !! p = Some o → o ≠ Pending →
  promises (settle q via o' st) !! p = Some o.
Proof.
  intros Hp Ho. rewrite promises_settle_settled; [done|].
  rewrite Hp. congruence.
Qed.

Lemma retire_keeps p o h via o' st :
  promises st !! p = Some o → o ≠ Pending →
  promises (retire h via o' st) !! p = Some o.
Proof. intros Hp Ho. unfold retire. by apply settle_keeps. Qed.

Lemma handler_close_keeps p o h st :
  promises st !! p = Some o → o ≠ Pending →
  promises (Peer.handler_close h st) !! p = Some o.
Proof. intros Hp Ho. unfold Peer.handler_close, pReject. by apply settle_keeps. Qed.

Lemma close_handlers_keeps p o l : ∀ st,
  promises st !! p = Some o → o ≠ Pending →
  promises (Peer.close_handlers l st) !! p = Some o.
Proof.
  induction l as [|h l IH]; intros st Hp Ho; [done|].
  simpl. apply IH; [|done]. by apply handler_close_keeps.
Qed.

Lemma handleResponse_keeps p o m st :
  promises st !! p = Some o → o ≠ Pending →
  promises (Peer._handleResponse m st) !! p = Some o.
Proof.
  intros Hp Ho. unfold Peer._handleResponse.
  destruct (map_get _ _) as [h|]; [|done].
  destruct (truthy (msg_ok m)).
  - destruct (map_has (h_id h) (_requestHandlers st)) eqn:Hhas.
    + rewrite handler_resolve_in by done. by apply retire_keeps.
    + by rewrite handler_resolve_out.
  - destruct (map_has (h_id h) (_requestHandlers st)) eqn:Hhas.
    + rewrite handler_reject_in by done. by apply retire_keeps.
    + by rewrite handler_reject_out.
Qed.

Lemma fire_timer_keeps p o t st :
  promises st !! p = Some o → o ≠ Pending →
  promises (Peer.fire_timer t st) !! p = Some o.
Proof.
  intros Hp Ho. destruct (timers st !! t) as [tm|] eqn:Ht.
  - destruct (map_has (tm_id tm) (_requestHandlers st)) eqn:Hhas.
    + rewrite (fire_timer_in t tm) by done. by apply retire_keeps.
    + by rewrite (fire_timer_out t tm).
  - by rewrite fire_timer_unarmed.
Qed.

Lemma step_keeps p o e st :
  promises st !! p = Some o → o ≠ Pending →
  promises (step st e) !! p = Some o.
Proof.
  intros Hp Ho. destruct e; simpl.
  - rewrite lookup_app_l; [done|]. by eapply lookup_lt_Some.
  - unfold Peer.close. destruct (_closed st); [done|].
    by apply (close_handlers_keeps p o).
  - unfold Peer.on_transport_close. by destruct (_closed st).
  - unfold Peer.on_transport_message.
    destruct (truthy (msg_response m)); [by apply handleResponse_keeps|].
    by destruct (truthy (msg_request m)).
  - by apply fire_timer_keeps.
  - done.
  - done.
Qed.

Lemma run_keeps p o tr : ∀ st,
  promises st !! p = Some o → o ≠ Pending →
  promises (run tr st) !! p = Some o.
Proof.
  induction tr as [|e tr IH]; intros st Hp Ho; [done|].
  simpl. apply IH; [|done]. by apply step_keeps.
Qed.

End settled.

(** ** [close()] and the closure of the transport *)

Section closing.
Implicit Types (h : handler) (l : list handler) (st : state).

Lemma close_unfold st :
  Peer.close st =
  if _closed st then st
  else emit EvClose
         (Peer.close_handlers (_requestHandlers st)
            (transport_do TClose (set_closed true st))).
Proof. done. Qed.

Lemma close_handlers_frame l : ∀ st,
  _closed (Peer.close_handlers l st) = _closed st ∧
  _requestHandlers (Peer.close_handlers l st) = _requestHandlers st ∧
  _transport (Peer.close_handlers l st) = _transport st ∧
  emitted (Peer.close_handlers l st) = emitted st ∧
  errors (Peer.close_handlers l st) = errors st ∧
  _id (Peer.close_handlers l st) = _id st.
Proof.
  induction l as [|h l IH]; intros st; [done|].
  simpl. destruct (IH (Peer.handler_close h st)) as (-> & -> & -> & -> & -> & ->).
  done.
Qed.

Lemma close_handlers_settles l : ∀ st,
  settles (Peer.close_handlers l st) =
  settles st ++ ((λ h, close_call (h_promise h)) <$> l).
Proof.
  induction l as [|h l IH]; intros st; simpl.
  - by rewrite app_nil_r.
  - rewrite IH. simpl. by rewrite <- app_assoc.
Qed.

Lemma close_handlers_unarmed l t : ∀ st,
  timers st !! t = None → timers (Peer.close_handlers l st) !! t = None.
Proof.
  induction l as [|h l IH]; intros st Ht; [done|].
  apply (IH (Peer.handler_close h st)).
  change (delete (h_timer h) (timers st) !! t = None).
  rewrite lookup_delete. by case_decide.
Qed.

Lemma close_handlers_clears l h : ∀ st,
  h ∈ l → timers (Peer.close_handlers l st) !! h_timer h = None.
Proof.
  induction l as [|h' l IH]; intros st Hin.
  - by apply not_elem_of_nil in Hin.
  - change (timers (Peer.close_handlers l (Peer.handler_close h' st)) !! h_timer h
            = None).
    apply elem_of_cons in Hin as [->|Hin]; [|by apply IH].
    apply close_handlers_unarmed.
    change (delete (h_timer h') (timers st) !! h_timer h' = None).
    apply lookup_delete_eq.
Qed.

Lemma close_handlers_rejects l h : ∀ st,
  h ∈ l → promises st !! h_promise h = Some Pending →
  promises (Peer.close_handlers l st) !! h_promise h = Some (Rejected peer_closed).
Proof.
  induction l as [|h' l IH]; intros st Hin Hp.
  - by apply not_elem_of_nil in Hin.
  - simpl. destruct (decide (h_promise h' = h_promise h)) as [Heq|Hne].
    + apply close_handlers_keeps; [|done].
      unfold Peer.handler_close, pReject. rewrite Heq.
      by apply promises_settle_pending.
    + apply elem_of_cons in Hin as [->|Hin]; [done|].
      apply IH; [done|].
      unfold Peer.handler_close, pReject. by rewrite promises_settle_ne.
Qed.

(** The listener of the transport's 'close' event only sets the flag and
    emits. *)
Lemma on_transport_close_frame st :
  _requestHandlers (Peer.on_transport_close st) = _requestHandlers st ∧
  timers (Peer.on_transport_close st) = timers st ∧
  promises (Peer.on_transport_close st) = promises st ∧
  settles (Peer.on_transport_close st) = settles st ∧
  _transport (Peer.on_transport_close st) = _transport st.
Proof. unfold Peer.on_transport_close. by destruct (_closed st). Qed.

Lemma closure_noop st c :
  is_closure c = true → _closed st = true → step st c = st.
Proof.
  intros Hc Hclosed. destruct c; try done; simpl.
  - unfold Peer.close. by rewrite Hclosed.
  - unfold Peer.on_transport_close. by rewrite Hclosed.
Qed.

Lemma closure_closes st c : is_closure c = true → _closed (step st c) = true.
Proof.
  intros Hc. destruct c; try done; simpl.
  - rewrite close_unfold. destruct (_closed st) eqn:Hclosed; [done|].
    simpl. by destruct (close_handlers_frame (_requestHandlers st)
      (transport_do TClose (set_closed true st))) as (-> & _).
  - unfold Peer.on_transport_close. by destruct (_closed st) eqn:Hclosed.
Qed.

Lemma closure_keeps_table st c :
  is_closure c = true → _requestHandlers (step st c) = _requestHandlers st.
Proof.
  intros Hc. destruct c; try done; simpl.
  - rewrite close_unfold. destruct (_closed st) eqn:Hclosed; [done|].
    simpl. by destruct (close_handlers_frame (_requestHandlers st)
      (transport_do TClose (set_closed true st))) as (_ & -> & _).
  - apply on_transport_close_frame.
Qed.

End closing.

(** C5.  [close()] on an open Peer sets the closed flag, calls [close] on
    the transport, invokes the close action of every entry of the table, in
    the order of the table and once each, and emits 'close'.  The close
    action of an entry clears the entry's timer and rejects its promise with
    'peer closed': every promise that was pending is rejected with that
    error. *)
Theorem close_rejects_every_pending_request st :
  _closed st = false →
  _closed (Peer.close st) = true ∧
  _transport (Peer.close st) = _transport st ++ [TClose] ∧
  emitted (Peer.close st) = emitted st ++ [EvClose] ∧
  settles (Peer.close st) =
    settles st ++ ((λ h, close_call (h_promise h)) <$> _requestHandlers st) ∧
  ∀ h, h ∈ _requestHandlers st →
    timers (Peer.close st) !! h_timer h = None ∧
    (promises st !! h_promise h = Some Pending →
     promises (Peer.close st) !! h_promise h = Some (Rejected peer_closed)).
Proof.
  intros Hopen. rewrite close_unfold, Hopen.
  set (st1 := transport_do TClose (set_closed true st)).
  destruct (close_handlers_frame (_requestHandlers st) st1)
    as (Hc & _ & Ht & He & _).
  split; [exact Hc|]. split; [exact Ht|].
  split; [simpl; by rewrite He|].
  split; [apply (close_handlers_settles _ st1)|].
  intros h Hin. split.
  - by apply (close_handlers_clears _ h st1).
  - intros Hp. by apply (close_handlers_rejects _ h st1).
Qed.

Lemma close_rejects_every_pending_request_witness :
  _closed ping_sent = false ∧
  settles (Peer.close ping_sent) = [close_call 0] ∧
  timers (Peer.close ping_sent) !! 0 = None ∧
  promises (Peer.close ping_sent) !! 0 = Some (Rejected peer_closed).
Proof.
  split; [reflexivity|].
  destruct (close_rejects_every_pending_request ping_sent)
    as (_ & _ & _ & Hs & Hh); [reflexivity|].
  split; [exact Hs|].
  destruct (Hh (Handler (JNum 1) 0 0)) as [Ht Hp]; [by left|].
  split; [exact Ht|]. apply Hp. reflexivity.
Defined.

(** C4 (defect of the code).  On [ping_sent], an open Peer with one
    outstanding request, the closure of the transport sets the closed flag
    and emits 'close' but rejects nothing: the promise stays pending, its
    timer stays armed and no close action is invoked, whereas [close()] on
    the same Peer rejects the promise with 'peer closed' and clears the
    timer. *)
Theorem transport_closure_rejects_nothing :
  _closed ping_sent = false ∧
  _closed (Peer.on_transport_close ping_sent) = true ∧
  emitted (Peer.on_transport_close ping_sent) = [EvClose] ∧
  promises (Peer.on_transport_close ping_sent) !! 0 = Some Pending ∧
  timers (Peer.on_transport_close ping_sent) !! 0 =
    Some (Timer (JNum 1) 0 10000) ∧
  settles (Peer.on_transport_close ping_sent) = [] ∧
  promises (Peer.close ping_sent) !! 0 = Some (Rejected peer_closed) ∧
  timers (Peer.close ping_sent) !! 0 = None.
Proof. repeat split; reflexivity. Qed.

(** ** Closing once *)

Lemma closed_step st e : _closed st = true → _closed (step st e) = true.
Proof.
  intros Hclosed. destruct e; simpl; try done.
  - unfold Peer.close. by rewrite Hclosed.
  - unfold Peer.on_transport_close. by rewrite Hclosed.
  - unfold Peer.on_transport_message, Peer._handleResponse.
    destruct (truthy (msg_response m)).
    + destruct (map_get _ _) as [h|]; [|done].
      unfold Peer.handler_resolve, Peer.handler_reject.
      by destruct (truthy (msg_ok m)), (map_has _ _).
    + by destruct (truthy (msg_request m)).
  - unfold Peer.fire_timer, Peer.timer_callback.
    destruct (timers st !! t) as [tm|]; [|done]. simpl.
    by destruct (map_has _ _).
Qed.

Lemma closed_run tr : ∀ st, _closed st = true → _closed (run tr st) = true.
Proof.
  induction tr as [|e tr IH]; intros st Hclosed; [done|].
  simpl. by apply IH, closed_step.
Qed.

Lemma count_close_app l1 l2 :
  count_close (l1 ++ l2) = count_close l1 + count_close l2.
Proof. unfold count_close. by rewrite filter_app, length_app. Qed.

Lemma close_emitted_once_step st e :
  close_emitted_once st → close_emitted_once (step st e).
Proof.
  unfold close_emitted_once. intros Hst. destruct e; simpl; try done.
  - rewrite close_unfold. destruct (_closed st) eqn:Hclosed.
    + by rewrite Hclosed.
    + destruct (close_handlers_frame (_requestHandlers st)
        (transport_do TClose (set_closed true st))) as (Hc & _ & _ & He & _).
      simpl. rewrite Hc, He. simpl. rewrite count_close_app, Hst. done.
  - unfold Peer.on_transport_close. destruct (_closed st) eqn:Hclosed.
    + by rewrite Hclosed.
    + simpl. rewrite count_close_app, Hst. done.
  - unfold Peer.on_transport_message, Peer._handleResponse.
    destruct (truthy (msg_response m)).
    + destruct (map_get _ _) as [h|]; [|done].
      unfold Peer.handler_resolve, Peer.handler_reject.
      by destruct (truthy (msg_ok m)), (map_has _ _).
    + destruct (truthy (msg_request m)); [|done].
      simpl. rewrite count_close_app, Hst. simpl.
      unfold count_close. simpl. lia.
  - unfold Peer.fire_timer, Peer.timer_callback.
    destruct (timers st !! t) as [tm|]; [|done]. simpl.
    by destruct (map_has _ _).
Qed.

Lemma close_emitted_once_run tr : ∀ st,
  close_emitted_once st → close_emitted_once (run tr st).
Proof.
  induction tr as [|e tr IH]; intros st Hst; [done|].
  simpl. by apply IH, close_emitted_once_step.
Qed.

Lemma run_app tr1 tr2 st : run (tr1 ++ tr2) st = run tr2 (run tr1 st).
Proof. apply foldl_app. Qed.

(** C8, as stated, fails: after a request and two [close()] calls, or after
    a [close()] and a closure of the transport, the entry of the request is
    still in the table; when the transport closes first and [close()]
    follows, the entry is still there and its promise is still pending. *)
Lemma entries_remain_after_closing_twice :
  _requestHandlers (run [Close; Close] ping_sent) = [Handler (JNum 1) 0 0] ∧
  _requestHandlers (run [Close; TransportClose] ping_sent) =
    [Handler (JNum 1) 0 0] ∧
  _requestHandlers (run [TransportClose; Close] ping_sent) =
    [Handler (JNum 1) 0 0] ∧
  promises (run [TransportClose; Close] ping_sent) !! 0 = Some Pending ∧
  _requestHandlers (run [Close; Close] ping_sent) ≠ [].
Proof. repeat (split; [reflexivity|]). discriminate. Qed.

(** C8 (amended).  In a run of a new Peer that contains two closures
    [c1] and [c2], each a [close()] call or a closure of the transport, in
    either order and with anything around them, exactly one 'close' is
    emitted, the Peer ends closed, and the second closure changes nothing
    because the closed flag is already true.  Closing removes no entry of
    the table. *)
Theorem closing_twice_notifies_once peerId tr1 c1 tr2 c2 tr3 :
  is_closure c1 = true → is_closure c2 = true →
  let before := run (tr1 ++ c1 :: tr2) (Peer.constructor peerId) in
  let st := run (tr1 ++ c1 :: tr2 ++ c2 :: tr3) (Peer.constructor peerId) in
  count_close (emitted st) = 1 ∧
  _closed st = true ∧
  _closed before = true ∧
  step before c2 = before ∧
  (∀ s, _requestHandlers (step s c1) = _requestHandlers s) ∧
  (∀ s, _requestHandlers (step s c2) = _requestHandlers s).
Proof.
  intros Hc1 Hc2 before st.
  assert (_closed before = true) as Hbefore.
  { unfold before. rewrite run_app. simpl. apply closed_run.
    by apply closure_closes. }
  assert (_closed st = true) as Hst.
  { unfold st.
    replace (tr1 ++ c1 :: tr2 ++ c2 :: tr3)
      with ((tr1 ++ c1 :: tr2) ++ c2 :: tr3) by by rewrite <- app_assoc.
    rewrite run_app. by apply closed_run. }
  split.
  - pose proof (close_emitted_once_run (tr1 ++ c1 :: tr2 ++ c2 :: tr3)
      (Peer.constructor peerId)) as Hcount.
    unfold close_emitted_once in Hcount. fold st in Hcount.
    rewrite Hst in Hcount. by apply Hcount.
  - split; [done|]. split; [done|]. split; [by apply closure_noop|].
    split; intros s; by apply closure_keeps_table.
Qed.

Lemma closing_twice_notifies_once_witness :
  count_close
    (emitted (run ([Send (JNum 1) JNull JNull] ++ Close :: [] ++
                   TransportClose :: [])
                (Peer.constructor JNull))) = 1.
Proof.
  apply (closing_twice_notifies_once JNull [Send (JNum 1) JNull JNull]
           Close [] TransportClose []); reflexivity.
Defined.

(** ** Inbound messages *)

Section inbound.
Implicit Types (m : message) (h : handler) (st : state).

Lemma handleResponse_unmatched m st :
  map_get (msg_id m) (_requestHandlers st) = None →
  Peer._handleResponse m st = logger_error unmatched st.
Proof. unfold Peer._handleResponse. by intros ->. Qed.

Lemma handleResponse_matched m h st :
  map_get (msg_id m) (_requestHandlers st) = Some h →
  Peer._handleResponse m st =
  retire h (if truthy (msg_ok m) then ViaResolve else ViaReject)
    (response_outcome m) st.
Proof.
  intros Hget. unfold Peer._handleResponse, response_outcome. rewrite Hget.
  apply map_get_Some in Hget as [Hin _].
  destruct (truthy (msg_ok m)).
  - by apply handler_resolve_in, map_has_elem_of.
  - by apply handler_reject_in, map_has_elem_of.
Qed.

Lemma handleResponse_emits_nothing m st :
  emitted (Peer._handleResponse m st) = emitted st ∧
  _transport (Peer._handleResponse m st) = _transport st.
Proof.
  unfold Peer._handleResponse. destruct (map_get _ _) as [h|]; [|done].
  unfold Peer.handler_resolve, Peer.handler_reject.
  by destruct (truthy (msg_ok m)), (map_has _ _).
Qed.

End inbound.

(** C9.  A response whose id has no entry in the table is dropped: the
    listener only records the error 'received response does not match any
    sent request'.  No promise is settled and no call is made on one; the
    closed flag, the table, the timers, the transport and the emitted events
    are what they were. *)
Theorem unmatched_response_is_dropped m st :
  truthy (msg_response m) = true →
  map_get (msg_id m) (_requestHandlers st) = None →
  Peer.on_transport_message m st = logger_error unmatched st ∧
  _closed (Peer.on_transport_message m st) = _closed st ∧
  _requestHandlers (Peer.on_transport_message m st) = _requestHandlers st ∧
  promises (Peer.on_transport_message m st) = promises st ∧
  settles (Peer.on_transport_message m st) = settles st ∧
  timers (Peer.on_transport_message m st) = timers st ∧
  _transport (Peer.on_transport_message m st) = _transport st ∧
  emitted (Peer.on_transport_message m st) = emitted st ∧
  errors (Peer.on_transport_message m st) = errors st ++ [unmatched].
Proof.
  intros Hresp Hget. unfold Peer.on_transport_message.
  rewrite Hresp, handleResponse_unmatched by done. done.
Qed.

Lemma unmatched_response_is_dropped_witness :
  Peer.on_transport_message pong alice = logger_error unmatched alice.
Proof.
  apply (unmatched_response_is_dropped pong alice); reflexivity.
Defined.

(** C10.  The listener of 'message' tests the response field first.  A
    message whose response field is truthy is handled as a response whatever
    its request field, and handling a response emits no event; a message
    whose response field is falsy and whose request field is truthy is
    emitted as a 'request' and nothing else changes; any other message
    leaves the state as it is. *)
Theorem response_check_comes_first m st :
  Peer.on_transport_message m st =
    (if truthy (msg_response m) then Peer._handleResponse m st
     else if truthy (msg_request m) then emit (EvRequest m) st
     else st) ∧
  (if truthy (msg_response m)
   then emitted (Peer.on_transport_message m st) = emitted st
   else if truthy (msg_request m)
   then emitted (Peer.on_transport_message m st) = emitted st ++ [EvRequest m] ∧
        _requestHandlers (Peer.on_transport_message m st) = _requestHandlers st ∧
        promises (Peer.on_transport_message m st) = promises st ∧
        settles (Peer.on_transport_message m st) = settles st ∧
        timers (Peer.on_transport_message m st) = timers st ∧
        errors (Peer.on_transport_message m st) = errors st
   else Peer.on_transport_message m st = st).
Proof.
  unfold Peer.on_transport_message. split; [done|].
  destruct (truthy (msg_response m)).
  - apply handleResponse_emits_nothing.
  - by destruct (truthy (msg_request m)).
Qed.

Example response_with_request_flag_is_a_response :
  promises (Peer.on_transport_message both_flags ping_sent) !! 0 =
    Some (Fulfilled (JStr "pong"%string)) ∧
  emitted (Peer.on_transport_message both_flags ping_sent) = [].
Proof. split; reflexivity. Qed.

(** C6.  A response whose id has an entry in the table, the promise of the
    entry being pending, settles that promise: with a truthy [ok] it is
    fulfilled with the frame's data, otherwise it is rejected with an error
    made of the frame's errorReason and errorCode.  The entry leaves the
    table and its timer is cleared. *)
Theorem matching_response_settles m h st :
  truthy (msg_response m) = true →
  map_get (msg_id m) (_requestHandlers st) = Some h →
  promises st !! h_promise h = Some Pending →
  promises (Peer.on_transport_message m st) !! h_promise h =
    Some (if truthy (msg_ok m) then Fulfilled (msg_data m)
          else Rejected (JsError (msg_errorReason m) (msg_errorCode m))) ∧
  map_get (msg_id m) (_requestHandlers (Peer.on_transport_message m st)) = None ∧
  timers (Peer.on_transport_message m st) !! h_timer h = None.
Proof.
  intros Hresp Hget Hp. unfold Peer.on_transport_message. rewrite Hresp.
  rewrite (handleResponse_matched m h) by done.
  destruct (map_get_Some _ _ _ Hget) as [_ Hid].
  split; [|split].
  - by apply promises_settle_pending.
  - simpl. rewrite Hid. apply map_get_delete.
  - simpl. apply lookup_delete_eq.
Qed.

Lemma matching_response_settles_witness :
  promises (Peer.on_transport_message pong ping_sent) !! 0 =
    Some (Fulfilled (JStr "pong"%string)) ∧
  promises (Peer.on_transport_message refusal ping_sent) !! 0 =
    Some (Rejected (JsError (JStr "not allowed"%string) (JNum 403))).
Proof.
  split.
  - apply (matching_response_settles pong (Handler (JNum 1) 0 0) ping_sent);
      reflexivity.
  - apply (matching_response_settles refusal (Handler (JNum 1) 0 0) ping_sent);
      reflexivity.
Defined.

(** ** The calls made on one promise *)

Section once.
Implicit Types (p : nat) (st : state).

(** What the invariant leaves possible: no call yet, the close action
    alone, one gated call alone, or the close action followed by one gated
    call. *)
Lemma calls_shape st p :
  inv st →
  calls p st = [] ∨ calls p st = [close_call p] ∨
  ∃ c, gated c ∧ (calls p st = [c] ∨ calls p st = [close_call p; c]).
Proof.
  intros Hinv. destruct (decide (p < length (promises st))) as [Hlt|Hge].
  - destruct (decide (p ∈ h_promise <$> _requestHandlers st)) as [Hin|Hnin].
    + apply list_elem_of_fmap in Hin as (h & -> & Hin).
      destruct (inv_table _ Hinv h Hin) as [[_ ->]|(_ & _ & ->)]; auto.
    + right. right. by apply (inv_retired _ Hinv).
  - left. apply (inv_unborn _ Hinv). lia.
Qed.

Lemma close_call_not_gated p : ¬ gated (close_call p).
Proof. unfold gated. simpl. congruence. Qed.

Lemma gated_calls_at_most_one st p :
  inv st → length (filter gated (calls p st)) ≤ 1.
Proof.
  intros Hinv.
  destruct (calls_shape st p Hinv) as [->|[->|(c & Hc & [->| ->])]].
  - simpl. lia.
  - rewrite filter_cons, decide_False by apply close_call_not_gated.
    simpl. lia.
  - rewrite filter_cons, decide_True by done. simpl. lia.
  - rewrite filter_cons, decide_False by apply close_call_not_gated.
    rewrite filter_cons, decide_True by done. simpl. lia.
Qed.

(** A pending promise still has its entry in the table and its timer
    armed. *)
Lemma pending_is_outstanding st p :
  inv st → promises st !! p = Some Pending →
  calls p st = [] ∧
  ∃ h, h ∈ _requestHandlers st ∧ h_promise h = p ∧
       timers st !! h_timer h = Some (Timer (h_id h) p REQUEST_TIMEOUT).
Proof.
  intros Hinv Hp.
  assert (p < length (promises st)) as Hlt by by eapply lookup_lt_Some.
  pose proof (inv_state _ Hinv p Hlt) as Hst. rewrite Hp in Hst.
  assert (calls p st = []) as Hnone.
  { destruct (calls p st) as [|c l] eqn:Hc; [done|]. exfalso.
    apply (inv_outcome _ Hinv c); [|congruence].
    assert (c ∈ calls p st) as Hin by (rewrite Hc; by left).
    unfold calls in Hin. by apply list_elem_of_filter in Hin as [_ ?]. }
  split; [done|].
  destruct (decide (p ∈ h_promise <$> _requestHandlers st)) as [Hin|Hnin].
  - apply list_elem_of_fmap in Hin as (h & -> & Hin). exists h.
    split; [done|]. split; [done|].
    destruct (inv_table _ Hinv h Hin) as [[[tm Ht] _]|(_ & _ & Hc)];
      [|congruence].
    destruct (inv_armed _ Hinv _ tm Ht) as [Hd Hin'].
    pose proof (inv_distinct st _ h Hinv Hin' Hin) as Heq.
    rewrite Ht. destruct tm as [i q d]. simpl in *.
    rewrite <- Heq by auto. simpl. by rewrite Hd.
  - destruct (inv_retired _ Hinv p Hlt Hnin) as (c & _ & [Hc|Hc]); congruence.
Qed.

(** An armed timer belongs to a pending request. *)
Lemma armed_is_pending st t tm :
  inv st → timers st !! t = Some tm →
  tm_delay tm = REQUEST_TIMEOUT ∧
  Handler (tm_id tm) (tm_promise tm) t ∈ _requestHandlers st ∧
  map_get (tm_id tm) (_requestHandlers st) =
    Some (Handler (tm_id tm) (tm_promise tm) t) ∧
  calls (tm_promise tm) st = [] ∧
  promises st !! tm_promise tm = Some Pending.
Proof.
  intros Hinv Ht. destruct (inv_armed _ Hinv t tm Ht) as [Hd Hin].
  split; [done|]. split; [done|]. split.
  { apply (map_get_elem_of _ (Handler _ _ _)); [apply Hinv|done]. }
  destruct (inv_table _ Hinv _ Hin) as [[_ Hc]|(Hn & _)]; simpl in *;
    [|congruence].
  split; [done|].
  destruct (inv_bounds _ Hinv _ Hin) as [Hlt _]. simpl in Hlt.
  by rewrite (inv_state _ Hinv _ Hlt), Hc.
Qed.

(** Calls are only ever added. *)
Lemma settles_step st e : ∃ l, settles (step st e) = settles st ++ l.
Proof.
  assert (∀ h via o, ∃ l, settles (retire h via o st) = settles st ++ l)
    as Hretire by (intros; by eexists).
  assert (∃ l, settles st = settles st ++ l) as Hsame
    by (exists []; by rewrite app_nil_r).
  destruct e; simpl; try done.
  - rewrite close_unfold. destruct (_closed st); [done|]. simpl.
    rewrite close_handlers_settles. by eexists.
  - unfold Peer.on_transport_close. by destruct (_closed st).
  - unfold Peer.on_transport_message.
    destruct (truthy (msg_response m)); [|by destruct (truthy (msg_request m))].
    destruct (map_get (msg_id m) (_requestHandlers st)) as [h|] eqn:Hget.
    + rewrite (handleResponse_matched m h) by done. apply Hretire.
    + by rewrite handleResponse_unmatched.
  - destruct (timers st !! t) as [tm|] eqn:Ht.
    + destruct (map_has (tm_id tm) (_requestHandlers st)) eqn:Hhas.
      * rewrite (fire_timer_in t tm) by done. apply Hretire.
      * by rewrite (fire_timer_out t tm).
    + by rewrite fire_timer_unarmed.
Qed.

Lemma calls_run tr p : ∀ st, ∃ l, calls p (run tr st) = calls p st ++ l.
Proof.
  induction tr as [|e tr IH]; intros st.
  - exists []. by rewrite app_nil_r.
  - simpl. destruct (IH (step st e)) as [l ->].
    destruct (settles_step st e) as [l' Hl']. unfold calls at 1.
    rewrite Hl', filter_app, <- app_assoc. by eexists.
Qed.

(** Once a gated call has been made on a promise, no call is made on it
    again. *)
Lemma retired_for_good st tr p c :
  inv st → fresh_ids tr st = true → gated c → calls p st = [c] →
  calls p (run tr st) = [c].
Proof.
  intros Hinv Hfresh Hc Hcalls.
  destruct (calls_run tr p st) as [l Hl]. rewrite Hcalls in Hl.
  assert (close_call p ≠ c) as Hne.
  { intros <-. by apply (close_call_not_gated p). }
  destruct (calls_shape (run tr st) p (inv_run tr st Hinv Hfresh))
    as [Hs|[Hs|(c' & _ & [Hs|Hs])]]; rewrite Hs in Hl |- *;
    simpl in Hl; congruence.
Qed.

End once.

Lemma gate_passed_for_good st tr p c :
  inv st → fresh_ids tr st = true → c ∈ calls p st → gated c →
  calls p (run tr st) = calls p st.
Proof.
  intros Hinv Hfresh Hin Hc.
  assert (close_call p ≠ c) as Hne.
  { intros <-. by apply (close_call_not_gated p). }
  destruct (calls_run tr p st) as [l Hl].
  destruct (calls_shape st p Hinv) as [Hs|[Hs|(c1 & Hc1 & [Hs|Hs])]];
    rewrite Hs in Hin, Hl |- *.
  - by apply not_elem_of_nil in Hin.
  - apply list_elem_of_singleton in Hin. congruence.
  - rewrite Hl. apply (retired_for_good st tr p c1 Hinv Hfresh Hc1) in Hs.
    rewrite Hs in Hl. simpl in Hl. injection Hl as <-. done.
  - assert (close_call p ≠ c1) as Hne1.
    { intros <-. by apply (close_call_not_gated p). }
    destruct (calls_shape (run tr st) p (inv_run tr st Hinv Hfresh))
      as [Hs'|[Hs'|(c' & _ & [Hs'|Hs'])]]; rewrite Hs' in Hl |- *;
      simpl in Hl; congruence.
Qed.

(** C2.  Take any run of a new Peer in which the ids of the requests are
    unique among the outstanding ones, and any promise [p] returned by a
    [send] of that run.  The three actions gated by the removal of the entry
    (resolve, reject, timeout) have called the promise at most once, the
    only call that can come before theirs is the one of the close action,
    and once one of them has called, no call is ever made on the promise
    again.  The promise is either pending, with its entry in the table and
    its timer armed, so that the timer settles it if nothing else does; or
    settled by the first call made on it, and then no continuation of the
    run, whatever the interleaving of responses, timers and closures,
    changes its state. *)
Theorem future_settles_exactly_once peerId tr p :
  fresh_ids tr (Peer.constructor peerId) = true →
  p < length (promises (run tr (Peer.constructor peerId))) →
  let st := run tr (Peer.constructor peerId) in
  length (filter gated (calls p st)) ≤ 1 ∧
  (calls p st = [] ∨ calls p st = [close_call p] ∨
   ∃ c, gated c ∧ (calls p st = [c] ∨ calls p st = [close_call p; c])) ∧
  (∀ c tr', c ∈ calls p st → gated c → fresh_ids tr' st = true →
     calls p (run tr' st) = calls p st) ∧
  ((promises st !! p = Some Pending ∧ calls p st = [] ∧
    ∃ h, h ∈ _requestHandlers st ∧ h_promise h = p ∧
         timers st !! h_timer h = Some (Timer (h_id h) p REQUEST_TIMEOUT) ∧
         promises (Peer.fire_timer (h_timer h) st) !! p =
           Some (Rejected request_timeout)) ∨
   (∃ c rest, calls p st = c :: rest ∧ sc_outcome c ≠ Pending ∧
      promises st !! p = Some (sc_outcome c) ∧
      ∀ tr', promises (run tr' st) !! p = Some (sc_outcome c))).
Proof.
  intros Hfresh Hlt st. fold st in Hlt.
  pose proof (inv_reachable peerId tr Hfresh) as Hinv. fold st in Hinv.
  split; [by apply gated_calls_at_most_one|].
  split; [by apply calls_shape|].
  split; [intros c tr' Hin Hc Hfresh'; by eapply gate_passed_for_good|].
  pose proof (inv_state _ Hinv p Hlt) as Hst.
  destruct (calls p st) as [|c rest] eqn:Hcalls.
  - left. destruct (pending_is_outstanding st p Hinv Hst)
      as (_ & h & Hin & Hp & Ht).
    split; [done|]. split; [done|]. exists h.
    split; [done|]. split; [done|]. split; [done|].
    rewrite (fire_timer_in _ _ _ Ht) by by apply map_has_elem_of.
    unfold retire. apply promises_settle_pending. exact Hst.
  - right. exists c, rest.
    assert (sc_outcome c ≠ Pending) as Ho.
    { apply (inv_outcome _ Hinv).
      assert (c ∈ calls p st) as Hin by (rewrite Hcalls; by left).
      unfold calls in Hin. by apply list_elem_of_filter in Hin as [_ ?]. }
    split; [done|]. split; [done|]. split; [done|].
    intros tr'. by apply run_keeps.
Qed.

Lemma future_settles_exactly_once_witness :
  length (filter gated
    (calls 0 (run [Send (JNum 1) JNull JNull; Close; TransportMessage pong;
                   TimerFire 0]
                (Peer.constructor JNull)))) ≤ 1.
Proof.
  apply (future_settles_exactly_once JNull
           [Send (JNum 1) JNull JNull; Close; TransportMessage pong;
            TimerFire 0] 0).
  - reflexivity.
  - vm_compute. lia.
Defined.

(** The close action is the one call that is not gated: it leaves the entry
    in the table, so a matching response delivered after [close()] passes
    the gate and calls [pResolve], which the rejected promise ignores. *)
Example response_after_close_is_ignored :
  calls 0 (run [Close; TransportMessage pong] ping_sent) =
    [close_call 0; SettleCall 0 ViaResolve (Fulfilled (JStr "pong"%string))] ∧
  promises (run [Close; TransportMessage pong] ping_sent) !! 0 =
    Some (Rejected peer_closed) ∧
  _requestHandlers (run [Close; TransportMessage pong] ping_sent) = [].
Proof. repeat split; reflexivity. Qed.

(** C7.  In a run with unique ids, take a timer that is still armed, that
    is, a request for which neither a matching response nor [close()] came
    first.  It was armed with REQUEST_TIMEOUT, 10000 ms, and its request is
    pending.  When it fires, the promise is rejected with 'request timeout'
    and the entry leaves the table; a response with the id of the request
    delivered after that is an unmatched one, which only logs an error; and
    whatever happens later, no call is made on the promise again and it
    stays rejected with 'request timeout'. *)
Theorem timeout_rejects_and_retires peerId tr t tm :
  fresh_ids tr (Peer.constructor peerId) = true →
  timers (run tr (Peer.constructor peerId)) !! t = Some tm →
  let st := run tr (Peer.constructor peerId) in
  let st' := Peer.fire_timer t st in
  tm_delay tm = REQUEST_TIMEOUT ∧ REQUEST_TIMEOUT = 10000%Z ∧
  promises st !! tm_promise tm = Some Pending ∧
  map_get (tm_id tm) (_requestHandlers st) =
    Some (Handler (tm_id tm) (tm_promise tm) t) ∧
  promises st' !! tm_promise tm = Some (Rejected request_timeout) ∧
  calls (tm_promise tm) st' =
    [SettleCall (tm_promise tm) ViaTimer (Rejected request_timeout)] ∧
  map_get (tm_id tm) (_requestHandlers st') = None ∧
  (∀ m, truthy (msg_response m) = true → msg_id m = tm_id tm →
     Peer.on_transport_message m st' = logger_error unmatched st') ∧
  (∀ tr', fresh_ids tr' st' = true →
     calls (tm_promise tm) (run tr' st') = calls (tm_promise tm) st' ∧
     promises (run tr' st') !! tm_promise tm = Some (Rejected request_timeout)).
Proof.
  intros Hfresh Ht st st'. fold st in Ht.
  pose proof (inv_reachable peerId tr Hfresh) as Hinv. fold st in Hinv.
  destruct (armed_is_pending st t tm Hinv Ht) as (Hd & Hin & Hget & Hc & Hp).
  assert (st' = retire (Handler (tm_id tm) (tm_promise tm) t) ViaTimer
                  (Rejected request_timeout) st) as Hst'.
  { apply fire_timer_in; [done|]. by apply (map_has_elem_of _ _ Hin). }
  assert (promises st' !! tm_promise tm = Some (Rejected request_timeout))
    as Hp'.
  { rewrite Hst'. by apply promises_settle_pending. }
  assert (calls (tm_promise tm) st' =
          [SettleCall (tm_promise tm) ViaTimer (Rejected request_timeout)])
    as Hc'.
  { rewrite Hst'. unfold retire. simpl h_promise. rewrite calls_settle_eq.
    replace (calls (tm_promise tm) (clearTimeout _ _))
      with (calls (tm_promise tm) st) by done.
    by rewrite Hc. }
  assert (map_get (tm_id tm) (_requestHandlers st') = None) as Hget'.
  { rewrite Hst'. apply map_get_delete. }
  split; [done|]. split; [done|]. split; [done|]. split; [done|].
  split; [done|]. split; [done|]. split; [done|]. split.
  - intros m Hresp Hid. unfold Peer.on_transport_message. rewrite Hresp.
    apply handleResponse_unmatched. by rewrite Hid.
  - intros tr' Hfresh'. split; [|by apply run_keeps].
    rewrite Hc'. apply retired_for_good; try done.
    unfold st'. by apply inv_fire_timer.
Qed.

Lemma timeout_rejects_and_retires_witness :
  promises (Peer.fire_timer 0 (run [Send (JNum 1) JNull JNull]
                                 (Peer.constructor JNull))) !! 0 =
  Some (Rejected request_timeout).
Proof.
  apply (timeout_rejects_and_retires JNull [Send (JNum 1) JNull JNull] 0
           (Timer (JNum 1) 0 10000)); reflexivity.
Defined.

(** * Further properties of the Peer *)

(** ** The getters *)





(** ** [send] composed with what may follow it *)

Lemma send_handler_in id method data st :
  Handler id (length (promises st)) (next_timer st)
  ∈ _requestHandlers (Peer.send id method data st).1.
Proof.
  pose proof (send_registers id method data st) as Hget.
  by apply map_get_Some in Hget as [? _].
Qed.

(** X2.  A request and its response.  Whatever the state of the Peer, a
    response frame carrying the id of a request just issued by [send]
    settles the promise that [send] returned: fulfilled with the frame's
    data when [ok] is truthy, rejected with the frame's errorReason and
    errorCode otherwise.  The entry is removed, the timer of the request is
    cleared and nothing is emitted or written to the transport. *)
Theorem send_then_response id method data m st :
  truthy (msg_response m) = true → msg_id m = id →
  let st1 := (Peer.send id method data st).1 in
  let p := (Peer.send id method data st).2 in
  let st2 := Peer.on_transport_message m st1 in
  promises st2 !! p =
    Some (if truthy (msg_ok m) then Fulfilled (msg_data m)
          else Rejected (JsError (msg_errorReason m) (msg_errorCode m))) ∧
  map_get id (_requestHandlers st2) = None ∧
  timers st2 !! next_timer st = None ∧
  emitted st2 = emitted st ∧
  _transport st2 = _transport st.
Proof.
  intros Hresp Hid st1 p st2.
  assert (st2 = retire (Handler id (length (promises st)) (next_timer st))
                  (if truthy (msg_ok m) then ViaResolve else ViaReject)
                  (response_outcome m) st1) as ->.
  { unfold st2, Peer.on_transport_message. rewrite Hresp.
    apply handleResponse_matched. rewrite Hid. apply send_registers. }
  split; [|split; [|split]].
  - unfold retire. apply promises_settle_pending. apply send_pending.
  - apply map_get_delete.
  - simpl. apply lookup_delete_eq.
  - done.
Qed.

Lemma send_then_response_witness :
  promises (Peer.on_transport_message refusal
              (Peer.send (JNum 1) JNull JNull (Peer.close alice)).1) !! 0 =
  Some (Rejected (JsError (JStr "not allowed"%string) (JNum 403))).
Proof.
  apply (send_then_response (JNum 1) JNull JNull refusal (Peer.close alice));
    reflexivity.
Defined.

(** X3.  A request and [close()].  On an open Peer, [close()] called after
    [send] rejects the promise that [send] returned with 'peer closed' and
    clears the timer of the request, so that the timer firing later changes
    nothing. *)
Theorem send_then_close id method data st :
  _closed st = false →
  let st1 := (Peer.send id method data st).1 in
  let p := (Peer.send id method data st).2 in
  promises (Peer.close st1) !! p = Some (Rejected peer_closed) ∧
  timers (Peer.close st1) !! next_timer st = None ∧
  Peer.fire_timer (next_timer st) (Peer.close st1) = Peer.close st1.
Proof.
  intros Hopen st1 p.
  assert (timers (Peer.close st1) !! next_timer st = None) as Ht.
  { rewrite close_unfold.
    replace (_closed st1) with false by done.
    apply (close_handlers_clears _
             (Handler id (length (promises st)) (next_timer st))).
    apply send_handler_in. }
  split; [|split; [done|by apply fire_timer_unarmed]].
  rewrite close_unfold. replace (_closed st1) with false by done.
  apply (close_handlers_rejects _
           (Handler id (length (promises st)) (next_timer st))).
  - apply send_handler_in.
  - apply send_pending.
Qed.

Lemma send_then_close_witness :
  promises (Peer.close (Peer.send (JNum 7) JNull JNull ping_sent).1) !! 1 =
  Some (Rejected peer_closed).
Proof.
  apply (send_then_close (JNum 7) JNull JNull ping_sent). reflexivity.
Defined.

(** X4.  A response delivered twice.  Whatever the state, the second
    delivery of a response frame finds no entry: it only logs 'received
    response does not match any sent request'. *)
Theorem duplicate_response_is_unmatched m st :
  truthy (msg_response m) = true →
  Peer.on_transport_message m (Peer.on_transport_message m st) =
  logger_error unmatched (Peer.on_transport_message m st).
Proof.
  intros Hresp. unfold Peer.on_transport_message. rewrite Hresp.
  apply handleResponse_unmatched.
  destruct (map_get (msg_id m) (_requestHandlers st)) as [h|] eqn:Hget.
  - rewrite (handleResponse_matched m h) by done.
    apply map_get_Some in Hget as [_ <-]. apply map_get_delete.
  - by rewrite handleResponse_unmatched.
Qed.

Lemma duplicate_response_is_unmatched_witness :
  Peer.on_transport_message pong (Peer.on_transport_message pong ping_sent) =
  logger_error unmatched (Peer.on_transport_message pong ping_sent).
Proof.
  apply (duplicate_response_is_unmatched pong ping_sent). reflexivity.
Defined.

(** ** The table of an open Peer *)

(** X5.  While the closed flag is false, in a run with unique ids, the table
    holds exactly the requests that are pending: a promise returned by
    [send] is pending if and only if a handler of the table owns it, and
    every handler of the table still has its timer armed. *)
Theorem open_table_is_the_pending_set peerId tr :
  fresh_ids tr (Peer.constructor peerId) = true →
  _closed (run tr (Peer.constructor peerId)) = false →
  let st := run tr (Peer.constructor peerId) in
  (∀ p, promises st !! p = Some Pending ↔
        p ∈ h_promise <$> _requestHandlers st) ∧
  (∀ h, h ∈ _requestHandlers st →
        timers st !! h_timer h =
          Some (Timer (h_id h) (h_promise h) REQUEST_TIMEOUT)).
Proof.
  intros Hfresh Hopen st. fold st in Hopen.
  pose proof (inv_reachable peerId tr Hfresh) as Hinv. fold st in Hinv.
  assert (∀ h, h ∈ _requestHandlers st →
            promises st !! h_promise h = Some Pending) as Hpending.
  { intros h Hin.
    destruct (inv_table _ Hinv h Hin) as [[_ Hc]|(_ & ? & _)]; [|congruence].
    destruct (inv_bounds _ Hinv h Hin) as [Hlt _].
    by rewrite (inv_state _ Hinv _ Hlt), Hc. }
  split.
  - intros p. split.
    + intros Hp. destruct (pending_is_outstanding st p Hinv Hp)
        as (_ & h & Hin & <- & _).
      apply list_elem_of_fmap. eauto.
    + intros Hin. apply list_elem_of_fmap in Hin as (h & -> & Hin). auto.
  - intros h Hin.
    destruct (pending_is_outstanding st _ Hinv (Hpending h Hin))
      as (_ & h' & Hin' & Heq & Ht).
    rewrite (inv_distinct st h' h Hinv Hin' Hin) in Ht by auto. done.
Qed.

Lemma open_table_is_the_pending_set_witness :
  promises (run [Send (JNum 1) JNull JNull; Send (JNum 2) JNull JNull;
                 TransportMessage pong] (Peer.constructor JNull)) !! 1 =
    Some Pending ↔
  1 ∈ h_promise <$>
      _requestHandlers
        (run [Send (JNum 1) JNull JNull; Send (JNum 2) JNull JNull;
              TransportMessage pong] (Peer.constructor JNull)).
Proof.
  apply (open_table_is_the_pending_set JNull
           [Send (JNum 1) JNull JNull; Send (JNum 2) JNull JNull;
            TransportMessage pong]); reflexivity.
Defined.

(** ** [close()] and the timers *)

Lemma close_handlers_only_clears l t tm : ∀ st,
  timers (Peer.close_handlers l st) !! t = Some tm →
  timers st !! t = Some tm.
Proof.
  induction l as [|h l IH]; intros st Ht; [done|].
  apply (IH (Peer.handler_close h st)) in Ht.
  change (delete (h_timer h) (timers st) !! t = Some tm) in Ht.
  by apply lookup_delete_Some in Ht as [_ ?].
Qed.

(** X6.  [close()] leaves no timer behind.  In a run with unique ids, after
    [close()] on an open Peer no timer is armed any more. *)
Theorem close_leaves_no_timer peerId tr :
  fresh_ids tr (Peer.constructor peerId) = true →
  _closed (run tr (Peer.constructor peerId)) = false →
  timers (Peer.close (run tr (Peer.constructor peerId))) = ∅.
Proof.
  intros Hfresh Hopen.
  pose proof (inv_reachable peerId tr Hfresh) as Hinv.
  set (st := run tr (Peer.constructor peerId)) in *.
  apply map_eq. intros t. rewrite lookup_empty.
  rewrite close_unfold, Hopen.
  destruct (timers _ !! t) as [tm|] eqn:Ht; [|done]. exfalso.
  pose proof Ht as Ht'. apply close_handlers_only_clears in Ht'.
  destruct (inv_armed _ Hinv t tm Ht') as [_ Hin].
  assert (timers (emit EvClose (Peer.close_handlers (_requestHandlers st)
            (transport_do TClose (set_closed true st)))) !! t = None) as Hn.
  { apply (close_handlers_clears _ (Handler (tm_id tm) (tm_promise tm) t)).
    exact Hin. }
  congruence.
Qed.

Lemma close_leaves_no_timer_witness :
  timers (Peer.close (run [Send (JNum 1) JNull JNull;
                           Send (JNum 2) JNull JNull]
                        (Peer.constructor JNull))) = ∅.
Proof.
  apply (close_leaves_no_timer JNull
           [Send (JNum 1) JNull JNull; Send (JNum 2) JNull JNull]);
    reflexivity.
Defined.

(** ** What reaches the transport *)

Lemma transport_step st e :
  _transport (step st e) = _transport st ++ transport_calls_of st e.
Proof.
  destruct e; simpl; rewrite ?app_nil_r; try done.
  - rewrite close_unfold. destruct (_closed st); [by rewrite app_nil_r|].
    simpl. by destruct (close_handlers_frame (_requestHandlers st)
      (transport_do TClose (set_closed true st))) as (_ & _ & -> & _).
  - apply on_transport_close_frame.
  - unfold Peer.on_transport_message.
    destruct (truthy (msg_response m)).
    + by destruct (handleResponse_emits_nothing m st) as [_ ->].
    + by destruct (truthy (msg_request m)).
  - unfold Peer.fire_timer, Peer.timer_callback.
    destruct (timers st !! t) as [tm|]; [|done]. simpl.
    by destruct (map_has _ _).
Qed.

Lemma sent_frames_app l1 l2 :
  sent_frames (l1 ++ l2) = sent_frames l1 ++ sent_frames l2.
Proof. apply omap_app. Qed.

Lemma sent_frames_calls_of st e :
  sent_frames (transport_calls_of st e) = responses_of [e].
Proof. destruct e; try done. simpl. by destruct (_closed st). Qed.

(** X7.  The frames written to the transport.  Over any run from any state,
    the frames handed to [this._transport.send] are exactly the response
    frames built by the [accept] and [reject] calls of the run, one per
    call, in the order of the calls.  No other method writes a frame; in
    particular [send] writes none, and [accept] and [reject] write theirs
    whether the Peer is closed or not and however often they are called. *)
Theorem frames_written_are_the_responses tr st :
  sent_frames (_transport (run tr st)) =
  sent_frames (_transport st) ++ responses_of tr.
Proof.
  revert st. induction tr as [|e tr IH]; intros st.
  - simpl. by rewrite app_nil_r.
  - change (run (e :: tr) st) with (run tr (step st e)).
    rewrite IH, transport_step, sent_frames_app.
    rewrite sent_frames_calls_of, <- app_assoc. f_equal.
    symmetry. apply (omap_app _ [e] tr).
Qed.

Lemma count_tclose_app l1 l2 :
  count_tclose (l1 ++ l2) = count_tclose l1 + count_tclose l2.
Proof. unfold count_tclose. by rewrite filter_app, length_app. Qed.

Lemma count_tclose_calls_of st e :
  count_tclose (transport_calls_of st e) =
  match e with Close => if _closed st then 0 else 1 | _ => 0 end.
Proof. destruct e; try done. simpl. by destruct (_closed st). Qed.

Lemma tclose_bounded_run tr : ∀ st,
  count_tclose (_transport st) ≤ (if _closed st then 1 else 0) →
  count_tclose (_transport (run tr st)) ≤
    (if _closed (run tr st) then 1 else 0).
Proof.
  induction tr as [|e tr IH]; intros st Hst; [done|].
  simpl. apply IH. rewrite transport_step, count_tclose_app.
  rewrite count_tclose_calls_of.
  destruct (_closed st) eqn:Hclosed.
  - rewrite closed_step by done. destruct e; lia.
  - destruct e; try (destruct (_closed (step st _)); lia).
    rewrite (closure_closes st Close) by done. lia.
Qed.

Lemma tclose_needs_close tr : ∀ st,
  Close ∉ tr →
  count_tclose (_transport (run tr st)) = count_tclose (_transport st).
Proof.
  induction tr as [|e tr IH]; intros st Hnotin; [done|].
  simpl. rewrite IH.
  - rewrite transport_step, count_tclose_app, count_tclose_calls_of.
    destruct e; try lia. exfalso. apply Hnotin. by left.
  - intros Hin. apply Hnotin. by right.
Qed.

(** X8.  The transport is closed at most once, and only by [close()].  In
    any run of a new Peer [this._transport.close()] is called at most once;
    when it has been called the Peer is closed; and in a run without a
    [close()] call it is never called, the closure of the transport by the
    other side included. *)
Theorem transport_closed_at_most_once peerId tr :
  let st := run tr (Peer.constructor peerId) in
  count_tclose (_transport st) ≤ 1 ∧
  (count_tclose (_transport st) = 1 → _closed st = true) ∧
  (Close ∉ tr → count_tclose (_transport st) = 0).
Proof.
  intros st.
  pose proof (tclose_bounded_run tr (Peer.constructor peerId)) as Hb.
  fold st in Hb. simpl in Hb. specialize (Hb (le_n 0)).
  split; [destruct (_closed st); lia|].
  split; [destruct (_closed st); [done|lia]|].
  intros Hnotin. unfold st. by rewrite tclose_needs_close.
Qed.

(** ** An id used twice *)

Lemma length_map_set_taken h l :
  map_has (h_id h) l = true → length (map_set h l) = length l.
Proof. unfold map_set. intros ->. apply length_fmap. Qed.

(** X9.  What [send] does with an id that is still in the table.  Take, in
    a run with unique ids so far, a request whose timer is armed, and let
    [send] be given the id of that request again.  The [Map] keeps one
    entry for the id, now the handler of the second request.  When the timer
    of the first request fires, it rejects the first promise with 'request
    timeout' and deletes the entry of the second request; a response for the
    id is then unmatched.  When the timer of the second request fires, it
    finds no entry and does nothing: the second promise stays pending with
    neither an entry nor a timer left to settle it. *)
Theorem reused_id_strands_the_second_request peerId tr t1 tm1 method data :
  fresh_ids tr (Peer.constructor peerId) = true →
  timers (run tr (Peer.constructor peerId)) !! t1 = Some tm1 →
  let st := run tr (Peer.constructor peerId) in
  let st1 := (Peer.send (tm_id tm1) method data st).1 in
  let p := (Peer.send (tm_id tm1) method data st).2 in
  let st2 := Peer.fire_timer t1 st1 in
  let st3 := Peer.fire_timer (next_timer st) st2 in
  length (_requestHandlers st1) = length (_requestHandlers st) ∧
  map_get (tm_id tm1) (_requestHandlers st1) =
    Some (Handler (tm_id tm1) p (next_timer st)) ∧
  promises st2 !! tm_promise tm1 = Some (Rejected request_timeout) ∧
  promises st2 !! p = Some Pending ∧
  map_get (tm_id tm1) (_requestHandlers st2) = None ∧
  promises st3 !! p = Some Pending ∧
  map_get (tm_id tm1) (_requestHandlers st3) = None ∧
  timers st3 !! next_timer st = None.
Proof.
  intros Hfresh Ht st st1 p st2 st3. fold st in Ht.
  pose proof (inv_reachable peerId tr Hfresh) as Hinv. fold st in Hinv.
  destruct (armed_is_pending st t1 tm1 Hinv Ht) as (_ & Hin & _ & _ & Hp1).
  destruct (inv_bounds _ Hinv _ Hin) as [Hlt1 Hlt2]. simpl in Hlt1, Hlt2.
  assert (map_has (tm_id tm1) (_requestHandlers st) = true) as Hhas
    by apply (map_has_elem_of _ _ Hin).
  assert (map_has (tm_id tm1) (_requestHandlers st1) = true) as Hhas1.
  { apply (map_has_elem_of
             (Handler (tm_id tm1) (length (promises st)) (next_timer st))).
    apply send_handler_in. }
  assert (st2 = retire (Handler (tm_id tm1) (tm_promise tm1) t1) ViaTimer
                  (Rejected request_timeout) st1) as Hst2.
  { apply fire_timer_in; [|done].
    unfold st1, Peer.send. simpl. rewrite lookup_insert_ne by lia. done. }
  assert (promises st2 !! p = Some Pending) as Hp2.
  { rewrite Hst2. unfold retire. rewrite promises_settle_ne.
    - apply send_pending.
    - simpl. unfold p. rewrite send_promise. lia. }
  assert (map_get (tm_id tm1) (_requestHandlers st2) = None) as Hget2.
  { rewrite Hst2. apply map_get_delete. }
  assert (st3 = clearTimeout (next_timer st) st2) as Hst3.
  { apply (fire_timer_out _ (Timer (tm_id tm1) p REQUEST_TIMEOUT)).
    - rewrite Hst2. simpl. rewrite lookup_delete_ne by lia.
      apply lookup_insert_eq.
    - by apply map_get_None. }
  split.
  { apply (length_map_set_taken
             (Handler (tm_id tm1) (length (promises st)) (next_timer st))).
    exact Hhas. }
  split; [apply send_registers|].
  split.
  { rewrite Hst2. unfold retire. apply promises_settle_pending.
    unfold st1, Peer.send. simpl. by rewrite lookup_app_l. }
  split; [done|]. split; [done|].
  rewrite Hst3. split; [done|]. split; [done|].
  simpl. apply lookup_delete_eq.
Qed.

Lemma reused_id_strands_the_second_request_witness :
  promises (Peer.fire_timer 1 (Peer.fire_timer 0
              (Peer.send (JNum 1) JNull JNull
                 (run [Send (JNum 1) JNull JNull] (Peer.constructor JNull))).1))
    !! 1 = Some Pending.
Proof.
  apply (reused_id_strands_the_second_request JNull
           [Send (JNum 1) JNull JNull] 0 (Timer (JNum 1) 0 10000) JNull JNull);
    reflexivity.
Defined.

(** ** What the Peer emits *)

Lemma emitted_step st e :
  emitted (step st e) = emitted st ++ emissions_of st e.
Proof.
  destruct e; simpl; rewrite ?app_nil_r; try done.
  - rewrite close_unfold. destruct (_closed st); [by rewrite app_nil_r|].
    simpl. by destruct (close_handlers_frame (_requestHandlers st)
      (transport_do TClose (set_closed true st))) as (_ & _ & _ & -> & _).
  - unfold Peer.on_transport_close.
    destruct (_closed st); [by rewrite app_nil_r|done].
  - unfold Peer.on_transport_message.
    destruct (truthy (msg_response m)).
    + destruct (handleResponse_emits_nothing m st) as [-> _].
      by rewrite app_nil_r.
    + destruct (truthy (msg_request m)); [done|by rewrite app_nil_r].
  - unfold Peer.fire_timer, Peer.timer_callback.
    destruct (timers st !! t) as [tm|]; [|done]. simpl.
    by destruct (map_has _ _).
Qed.

Lemma emitted_requests_of st e :
  emitted_requests (emissions_of st e) = inbound_requests [e].
Proof.
  destruct e; try done; simpl.
  - by destruct (_closed st).
  - by destruct (_closed st).
  - by destruct (truthy (msg_response m)), (truthy (msg_request m)).
Qed.

(** X10.  The requests surfaced to the application.  Over any run from any
    state, the 'request' events emitted are exactly the frames delivered by
    the transport whose response field is falsy and whose request field is
    truthy, one event per frame, in the order of delivery.  The closed flag
    plays no part: a closed Peer emits 'request' like an open one. *)
Theorem requests_emitted_are_those_received tr st :
  emitted_requests (emitted (run tr st)) =
  emitted_requests (emitted st) ++ inbound_requests tr.
Proof.
  revert st. induction tr as [|e tr IH]; intros st.
  - simpl. by rewrite app_nil_r.
  - change (run (e :: tr) st) with (run tr (step st e)).
    rewrite IH, emitted_step. unfold emitted_requests at 1.
    rewrite omap_app. fold (emitted_requests (emitted st)).
    fold (emitted_requests (emissions_of st e)).
    rewrite emitted_requests_of, <- app_assoc. f_equal.
    symmetry. apply (omap_app _ [e] tr).
Qed.

(** * Properties of the Application *)

Section application.
Import Application.

Variable unhandled : list jsval → jsval.

Implicit Types (a : app) (l : listener) (ls : list listener)
  (args : list jsval) (v e : jsval).

(** Calling listeners only adds to the log. *)
Lemma call_listeners_frame ls args : ∀ a,
  listeners (call_listeners ls args a).1 = listeners a ∧
  servers (call_listeners ls args a).1 = servers a.
Proof.
  induction ls as [|l ls IH]; intros a; [done|].
  simpl. destruct (l_throws l args); [done|].
  destruct (IH (record (Invoke (l_name l) args) a)) as [-> ->]. done.
Qed.

Lemma call_listeners_quiet ls args : ∀ a,
  (∀ l, l ∈ ls → l_throws l args = None) →
  (call_listeners ls args a).2 = Returns true ∧
  log (call_listeners ls args a).1 = log a ++ invocations ls args.
Proof.
  induction ls as [|l ls IH]; intros a Hquiet; simpl.
  - by rewrite app_nil_r.
  - rewrite (Hquiet l) by by left.
    destruct (IH (record (Invoke (l_name l) args) a)) as [-> ->].
    + intros l' Hin. apply Hquiet. by right.
    + simpl. by rewrite <- app_assoc.
Qed.

Lemma call_listeners_thrower pre l post args v : ∀ a,
  (∀ l', l' ∈ pre → l_throws l' args = None) →
  l_throws l args = Some v →
  (call_listeners (pre ++ l :: post) args a).2 = Throws v ∧
  log (call_listeners (pre ++ l :: post) args a).1 =
    log a ++ invocations pre args ++ [Invoke (l_name l) args].
Proof.
  induction pre as [|l0 pre IH]; intros a Hquiet Hthrows; simpl.
  - by rewrite Hthrows.
  - rewrite (Hquiet l0) by by left.
    destruct (IH (record (Invoke (l_name l0) args) a)) as [-> ->].
    + intros l' Hin. apply Hquiet. by right.
    + done.
    + simpl. by rewrite <- app_assoc.
Qed.

Lemma call_listeners_returns ls args : ∀ a b,
  (call_listeners ls args a).2 = Returns b →
  ∀ l, l ∈ ls → l_throws l args = None.
Proof.
  induction ls as [|l ls IH]; intros a b Hret l' Hin.
  - by apply not_elem_of_nil in Hin.
  - simpl in Hret. destruct (l_throws l args) as [v|] eqn:Hl; [done|].
    apply elem_of_cons in Hin as [->|Hin]; [done|].
    by eapply IH.
Qed.

Lemma emit_frame event args a :
  listeners (emit unhandled event args a).1 = listeners a ∧
  servers (emit unhandled event args a).1 = servers a.
Proof.
  unfold emit. destruct (listeners_of event a) as [|l ls] eqn:Hls.
  - by destruct (String.eqb event "error").
  - apply call_listeners_frame.
Qed.

Lemma listeners_of_emit event' event args a :
  listeners_of event' (emit unhandled event args a).1 = listeners_of event' a.
Proof.
  unfold listeners_of. by destruct (emit_frame event args a) as [-> _].
Qed.

Lemma emit_listened event args a :
  listeners_of event a ≠ [] →
  emit unhandled event args a = call_listeners (listeners_of event a) args a.
Proof. unfold emit. by destruct (listeners_of event a). Qed.

Lemma error_unlistened e a :
  listeners_of "error" a = [] → error unhandled e a = (a, Throws e).
Proof. unfold error. by intros ->. Qed.

Lemma error_listened e a :
  listeners_of "error" a ≠ [] →
  error unhandled e a =
  match call_listeners (listeners_of "error" a) [e] a with
  | (a', Returns _) => (a', Returns tt)
  | (a', Throws v) => (a', Throws v)
  end.
Proof.
  intros Hne. unfold error. rewrite emit_listened by done.
  by destruct (listeners_of "error" a).
Qed.

(** X11.  [error(e)] returns only when it was handled: it returns if and
    only if 'error' has at least one listener and none of the listeners
    throws when called with [e].  Without a listener it throws [e] itself and
    calls nothing. *)
Theorem error_returns_iff_handled e a :
  ((error unhandled e a).2 = Returns tt ↔
   listeners_of "error" a ≠ [] ∧
   ∀ l, l ∈ listeners_of "error" a → l_throws l [e] = None) ∧
  (listeners_of "error" a = [] → error unhandled e a = (a, Throws e)).
Proof.
  split; [|apply error_unlistened].
  destruct (decide (listeners_of "error" a = [])) as [Hnil|Hne].
  - rewrite error_unlistened by done. split; [done|]. by intros [? _].
  - rewrite error_listened by done. split.
    + intros Hret. split; [done|].
      destruct (call_listeners (listeners_of "error" a) [e] a)
        as [a' [b|v]] eqn:Hcall; [|done].
      apply (call_listeners_returns _ [e] a b). by rewrite Hcall.
    + intros [_ Hquiet].
      destruct (call_listeners_quiet (listeners_of "error" a) [e] a Hquiet)
        as [Hret _].
      by destruct (call_listeners _ _ _) as [a' [b|v]].
Qed.

(** X12.  With an 'error' listener that does not throw, [fire] never
    throws.  If 'error' has at least one listener and no 'error' listener
    throws, whatever it is called with, then [fire] returns, for every event
    and arguments: true when [emit] returned, false when a listener of the
    event threw. *)
Theorem fire_returns_when_errors_are_handled event args a :
  listeners_of "error" a ≠ [] →
  (∀ l args', l ∈ listeners_of "error" a → l_throws l args' = None) →
  (fire unhandled event args a).2 =
  match (emit unhandled event args a).2 with
  | Returns _ => Returns true
  | Throws _ => Returns false
  end.
Proof.
  intros Hne Hquiet. unfold fire.
  destruct (emit unhandled event args a) as [a' [b|v]] eqn:Hemit; [done|].
  assert (listeners_of "error" a' = listeners_of "error" a) as Hsame.
  { replace a' with (emit unhandled event args a).1 by by rewrite Hemit.
    apply listeners_of_emit. }
  rewrite error_listened by by rewrite Hsame.
  destruct (call_listeners_quiet (listeners_of "error" a') [v] a') as [Hret _].
  { intros l Hin. apply Hquiet. by rewrite <- Hsame. }
  by destruct (call_listeners _ _ _) as [a'' [b|w]].
Qed.

(** X13.  Without an 'error' listener, [fire] never returns false: it
    returns true when [emit] returns, and what [emit] throws escapes from
    [fire] unchanged, the application left as the listeners called so far
    left it. *)
Theorem fire_without_error_listener event args a :
  listeners_of "error" a = [] →
  fire unhandled event args a =
    match emit unhandled event args a with
    | (a', Returns _) => (a', Returns true)
    | (a', Throws v) => (a', Throws v)
    end ∧
  (fire unhandled event args a).2 ≠ Returns false.
Proof.
  intros Hnil.
  assert (fire unhandled event args a =
          match emit unhandled event args a with
          | (a', Returns _) => (a', Returns true)
          | (a', Throws v) => (a', Throws v)
          end) as Hfire.
  { unfold fire.
    destruct (emit unhandled event args a) as [a' [b|v]] eqn:Hemit; [done|].
    rewrite error_unlistened; [done|].
    replace a' with (emit unhandled event args a).1 by by rewrite Hemit.
    by rewrite listeners_of_emit. }
  split; [done|]. rewrite Hfire.
  by destruct (emit unhandled event args a) as [a' [b|v]].
Qed.

(** X14.  What [fire] does when a listener throws.  Let the listeners of
    the event be [pre], then [l], then [post], where [l] is the first to
    throw, and let no 'error' listener throw on the value [v] thrown by
    [l].  Then [fire] returns false, having called [pre] and [l] with the
    arguments of the event, then every 'error' listener with [v], in
    registration order; the listeners [post] are not called. *)
Theorem fire_hands_the_error_to_the_listeners event args a pre l post v :
  listeners_of event a = pre ++ l :: post →
  (∀ l', l' ∈ pre → l_throws l' args = None) →
  l_throws l args = Some v →
  listeners_of "error" a ≠ [] →
  (∀ l', l' ∈ listeners_of "error" a → l_throws l' [v] = None) →
  (fire unhandled event args a).2 = Returns false ∧
  log (fire unhandled event args a).1 =
    log a ++ invocations pre args ++ [Invoke (l_name l) args] ++
    invocations (listeners_of "error" a) [v].
Proof.
  intros Hls Hpre Hl Hne Hquiet. unfold fire.
  rewrite emit_listened by (rewrite Hls; by destruct pre).
  rewrite Hls.
  destruct (call_listeners_thrower pre l post args v a Hpre Hl) as [Hthrow Hlog].
  pose proof (call_listeners_frame (pre ++ l :: post) args a) as [Hsame _].
  destruct (call_listeners (pre ++ l :: post) args a) as [a' c].
  simpl in Hthrow, Hlog, Hsame. subst c.
  assert (listeners_of "error" a' = listeners_of "error" a) as Herr
    by (unfold listeners_of; by rewrite Hsame).
  rewrite error_listened by by rewrite Herr.
  rewrite Herr.
  destruct (call_listeners_quiet (listeners_of "error" a) [v] a' Hquiet)
    as [Hret Hlog'].
  destruct (call_listeners (listeners_of "error" a) [v] a') as [a'' [b|w]];
    [|done].
  simpl in *. split; [done|]. by rewrite Hlog', Hlog, <- !app_assoc.
Qed.

Lemma close_servers_log cs (srv : list jsval) : ∀ a,
  log (foldl (λ a server, record (ServerClose server cs) a) a srv) =
    log a ++ ((λ server, ServerClose server cs) <$> srv) ∧
  servers (foldl (λ a server, record (ServerClose server cs) a) a srv) =
    servers a ∧
  listeners (foldl (λ a server, record (ServerClose server cs) a) a srv) =
    listeners a.
Proof.
  induction srv as [|s srv IH]; intros a; simpl.
  - by rewrite app_nil_r.
  - destruct (IH (record (ServerClose s cs) a)) as (-> & -> & ->).
    simpl. by rewrite <- app_assoc.
Qed.

Lemma handleWebSocket_all hs : ∀ a,
  servers (foldl (λ a h, handleWebSocket h a) a hs) = servers a ++ hs ∧
  log (foldl (λ a h, handleWebSocket h a) a hs) = log a.
Proof.
  induction hs as [|h hs IH]; intros a; simpl.
  - by rewrite app_nil_r.
  - destruct (IH (handleWebSocket h a)) as [-> ->]. simpl.
    by rewrite <- app_assoc.
Qed.

(** X15.  [close] and [handleWebSocket].  After any number of
    [handleWebSocket] calls, [close(closeServers)] first asks the
    PeerManager to close with code 1001 and reason 'shutting down', then
    closes every server of the application, those added by the calls
    included, in the order they were added and with [closeServers] passed
    on.  The servers stay in [this.servers] and nothing records that the
    application was closed: a second [close] does all of it again. *)
Theorem close_closes_every_server hs cs1 cs2 a :
  let a1 := foldl (λ a h, handleWebSocket h a) a hs in
  log (close cs1 a1) =
    log a ++ PeerManagerClose (JNum 1001) (JStr "shutting down")
          :: ((λ server, ServerClose server cs1) <$> servers a ++ hs) ∧
  servers (close cs1 a1) = servers a ++ hs ∧
  log (close cs2 (close cs1 a1)) =
    log (close cs1 a1)
    ++ PeerManagerClose (JNum 1001) (JStr "shutting down")
       :: ((λ server, ServerClose server cs2) <$> servers a ++ hs).
Proof.
  intros a1.
  destruct (handleWebSocket_all hs a) as [Hs Hl]. fold a1 in Hs, Hl.
  assert (∀ cs b, log (close cs b) =
            log b ++ PeerManagerClose (JNum 1001) (JStr "shutting down")
                  :: ((λ server, ServerClose server cs) <$> servers b) ∧
          servers (close cs b) = servers b) as Hclose.
  { intros cs b. unfold close.
    destruct (close_servers_log cs (servers b)
      (record (PeerManagerClose (JNum 1001) (JStr "shutting down")) b))
      as (Hlog & Hsrv & _).
    simpl in *. rewrite Hlog, Hsrv. split; [|done].
    by rewrite <- app_assoc. }
  destruct (Hclose cs1 a1) as [Hl1 Hs1].
  destruct (Hclose cs2 (close cs1 a1)) as [Hl2 _].
  split; [by rewrite Hl1, Hl, Hs|]. split; [by rewrite Hs1, Hs|].
  by rewrite Hl2, Hs1, Hs.
Qed.

End application.

Lemma fire_returns_when_errors_are_handled_witness :
  (Application.fire unhandled_error "peer:online" [JNull] careful_app).2 =
  match (Application.emit unhandled_error "peer:online" [JNull] careful_app).2
  with
  | Application.Returns _ => Application.Returns true
  | Application.Throws _ => Application.Returns false
  end.
Proof.
  apply (fire_returns_when_errors_are_handled unhandled_error "peer:online"
           [JNull] careful_app).
  - vm_compute. discriminate.
  - intros l args' Hin. vm_compute in Hin.
    apply list_elem_of_singleton in Hin. subst l. reflexivity.
Defined.

Lemma fire_without_error_listener_witness :
  (Application.fire unhandled_error "peer:online" [JNull] careless_app).2 ≠
  Application.Returns false.
Proof.
  apply (fire_without_error_listener unhandled_error "peer:online" [JNull]
           careless_app).
  reflexivity.
Defined.

Lemma fire_hands_the_error_to_the_listeners_witness :
  (Application.fire unhandled_error "peer:online" [JNull] careful_app).2 =
  Application.Returns false.
Proof.
  apply (fire_hands_the_error_to_the_listeners unhandled_error "peer:online"
           [JNull] careful_app [quiet 1] (thrower 2 (JStr "boom")) []
           (JStr "boom")).
  - reflexivity.
  - intros l Hin. apply list_elem_of_singleton in Hin. subst l. reflexivity.
  - reflexivity.
  - vm_compute. discriminate.
  - intros l Hin. vm_compute in Hin.
    apply list_elem_of_singleton in Hin. subst l. reflexivity.
Defined.
